(** * The staff role cache (src/utils/RoleCache.ts)

    A shallow embedding of the [RoleCache] singleton of the staff-rep bot:
    its refresh pass ([updateAllRoles]), the timer handling of [initialize]
    and [stopAutoUpdate], and the read queries, followed by the properties
    of the written specification that concern them.

    Conventions of the embedding.
    - A JavaScript [Map] (and discord.js [Collection], which extends it) is
      an association list in insertion order; [set] on a key already present
      keeps the key's position, [set] on a new key appends.
    - An [async] method is a program over a small signature of actions: reads
      and writes of the fields of [this], [Date.now()], [setInterval] and
      [clearInterval], and the awaited calls to the guild.  A program is run
      either to completion against an oracle for the outside world ([run]),
      or up to its next [await] ([advance]), which is where other calls may
      interleave.
    - [rank] and [lastUpdated] are integers.
    - Console output is not modelled. *)

From Stdlib Require Import List String ZArith Bool Arith Lia Permutation Sorted.
Import ListNotations.

Local Open Scope string_scope.
Local Open Scope Z_scope.
Local Open Scope list_scope.

(** ** JavaScript [Map] with string keys, in insertion order *)

Module JsMap.
Section WithValue.
Context {V : Type}.

Definition t : Type := list (string * V).

Definition empty : t := [].

Fixpoint get (k : string) (m : t) : option V :=
  match m with
  | [] => None
  | (k', v) :: m' => if String.eqb k k' then Some v else get k m'
  end.

Definition has (k : string) (m : t) : bool :=
  match get k m with
  | Some _ => true
  | None => false
  end.

(** [Map.prototype.set]: overwrite in place, or append. *)
Fixpoint set (k : string) (v : V) (m : t) : t :=
  match m with
  | [] => [(k, v)]
  | (k', v') :: m' =>
      if String.eqb k k' then (k, v) :: m' else (k', v') :: set k v m'
  end.

Definition size (m : t) : nat := List.length m.
Definition keys (m : t) : list string := map fst m.
Definition values (m : t) : list V := map snd m.

(** A [Map] holds each key once. *)
Definition wf (m : t) : Prop := NoDup (keys m).
End WithValue.
Arguments t : clear implicits.
End JsMap.

(** ** Data model *)

Record GuildMember := mkMember {
  member_id : string;
  displayName : string
}.

Definition Collection : Type := JsMap.t GuildMember.

(** discord.js [Role]: [role_members] is what the [role.members] getter
    yields when the refresh pass reads it. *)
Record Role := mkRole {
  role_id : string;
  role_members : Collection
}.

Record Guild := mkGuild { guild_id : string }.

(** One element of [staffConfig.roles.staffHierarchy]. *)
Record RoleConfig := mkRoleConfig {
  cfg_id : string;
  cfg_name : string;
  cfg_rank : Z
}.

Record RoleCacheEntry := mkEntry {
  roleId : string;
  roleName : string;
  rank : Z;
  role : Role;
  members : Collection;
  lastUpdated : Z
}.

Definition Timeout : Type := nat.

(** The private fields of the [RoleCache] instance. *)
Record RoleCache := mkRoleCache {
  cache : JsMap.t RoleCacheEntry;
  guild : option Guild;
  updateInterval : option Timeout;
  isUpdating : bool
}.

Definition new_RoleCache : RoleCache :=
  {| cache := JsMap.empty; guild := None; updateInterval := None;
     isUpdating := false |}.

Definition with_cache (c : JsMap.t RoleCacheEntry) (s : RoleCache) : RoleCache :=
  {| cache := c; guild := guild s; updateInterval := updateInterval s;
     isUpdating := isUpdating s |}.

Definition with_guild (g : option Guild) (s : RoleCache) : RoleCache :=
  {| cache := cache s; guild := g; updateInterval := updateInterval s;
     isUpdating := isUpdating s |}.

Definition with_updateInterval (t : option Timeout) (s : RoleCache) : RoleCache :=
  {| cache := cache s; guild := guild s; updateInterval := t;
     isUpdating := isUpdating s |}.

Definition with_isUpdating (b : bool) (s : RoleCache) : RoleCache :=
  {| cache := cache s; guild := guild s; updateInterval := updateInterval s;
     isUpdating := b |}.

(** ** Programs: promises, exceptions and the actions of a method *)

Definition Error : Type := string.

(** A settled promise. *)
Inductive Settled (A : Type) : Type :=
| Fulfilled (v : A)
| Rejected (e : Error).
Arguments Fulfilled {A} v.
Arguments Rejected {A} e.

(** How a call ends: it returns, or an exception leaves it. *)
Inductive Completion (A : Type) : Type :=
| Normal (a : A)
| Abrupt (e : Error).
Arguments Normal {A} a.
Arguments Abrupt {A} e.

Inductive action : Type :=
| ReadThis
| WriteThis (s : RoleCache)
| DateNow
| SetInterval
| ClearInterval (t : Timeout)
| MembersFetch (g : Guild)
| RolesFetch (g : Guild) (id : string)
| AwaitOwn.

Definition result (a : action) : Type :=
  match a with
  | ReadThis => RoleCache
  | WriteThis _ => unit
  | DateNow => Z
  | SetInterval => Timeout
  | ClearInterval _ => unit
  | MembersFetch _ => Settled unit
  | RolesFetch _ _ => Settled (option Role)
  | AwaitOwn => unit
  end.

(** The actions at which an [async] method gives control back. *)
Definition is_await (a : action) : bool :=
  match a with
  | MembersFetch _ | RolesFetch _ _ | AwaitOwn => true
  | _ => false
  end.

Inductive Prog (A : Type) : Type :=
| Ret (a : A)
| Throw (e : Error)
| Act (a : action) (k : result a -> Prog A).
Arguments Ret {A} a.
Arguments Throw {A} e.
Arguments Act {A} a k.

Fixpoint bind {A B : Type} (p : Prog A) (f : A -> Prog B) : Prog B :=
  match p with
  | Ret a => f a
  | Throw e => Throw e
  | Act a k => Act a (fun r => bind (k r) f)
  end.

(** [try { p } catch (e) { h e }] *)
Fixpoint try_catch {A : Type} (p : Prog A) (h : Error -> Prog A) : Prog A :=
  match p with
  | Ret a => Ret a
  | Throw e => h e
  | Act a k => Act a (fun r => try_catch (k r) h)
  end.

(** [try { p } finally { f }] *)
Fixpoint try_finally {A : Type} (p : Prog A) (f : Prog unit) : Prog A :=
  match p with
  | Ret a => bind f (fun _ => Ret a)
  | Throw e => bind f (fun _ => Throw e)
  | Act a k => Act a (fun r => try_finally (k r) f)
  end.

Declare Scope prog_scope.
Delimit Scope prog_scope with prog.
Notation "x <- p ;; q" := (bind p (fun x => q))
  (at level 61, p at next level, right associativity) : prog_scope.
Notation "p ;; q" := (bind p (fun _ => q))
  (at level 61, right associativity) : prog_scope.
Local Open Scope prog_scope.

Definition read_this : Prog RoleCache := Act ReadThis (fun s => Ret s).
Definition write_this (s : RoleCache) : Prog unit :=
  Act (WriteThis s) (fun _ => Ret tt).
Definition modify_this (f : RoleCache -> RoleCache) : Prog unit :=
  s <- read_this ;; write_this (f s).
Definition Date_now : Prog Z := Act DateNow (fun z => Ret z).
Definition setInterval : Prog Timeout := Act SetInterval (fun t => Ret t).
Definition clearInterval (t : Timeout) : Prog unit :=
  Act (ClearInterval t) (fun _ => Ret tt).

(** [await promise]: the value of a fulfilled promise, the exception of a
    rejected one. *)
Definition settle {A : Type} (r : Settled A) : Prog A :=
  match r with
  | Fulfilled v => Ret v
  | Rejected e => Throw e
  end.

Definition await_members_fetch (g : Guild) : Prog unit :=
  Act (MembersFetch g) settle.
Definition await_roles_fetch (g : Guild) (id : string) : Prog (option Role) :=
  Act (RolesFetch g id) settle.

(** [await p] for a method [p] of the cache itself: [p] runs, and the caller
    resumes in a later microtask. *)
Definition await_own {A : Type} (p : Prog A) : Prog A :=
  a <- p ;; Act AwaitOwn (fun _ => Ret a).

(** [this.guild.<...>] dereferences [this.guild]; on [null] that is a
    [TypeError]. *)
Definition deref_guild (s : RoleCache) : Prog Guild :=
  match guild s with
  | Some g => Ret g
  | None => Throw "TypeError: Cannot read properties of null"
  end.

Fixpoint for_of {A : Type} (l : list A) (body : A -> Prog unit) : Prog unit :=
  match l with
  | [] => Ret tt
  | x :: l' => body x ;; for_of l' body
  end.

(** ** The methods of [RoleCache] *)

Section Methods.
(** [staffConfig.roles.staffHierarchy], read from the configuration file
    at start-up. *)
Variable staffHierarchy : list RoleConfig.

(** One iteration of the loop of [updateAllRoles] (lines 73-103): the
    inner [try], whose [catch] only logs. *)
Definition cacheRole (roleConfig : RoleConfig) : Prog unit :=
  try_catch
    (s <- read_this ;;
     g <- deref_guild s ;;
     r <- await_roles_fetch g (cfg_id roleConfig) ;;
     match r with
     | None => Ret tt
     | Some role0 =>
         let roleMembers := role_members role0 in
         now <- Date_now ;;
         let cacheEntry :=
           {| roleId := cfg_id roleConfig;
              roleName := cfg_name roleConfig;
              rank := cfg_rank roleConfig;
              role := role0;
              members := roleMembers;
              lastUpdated := now |} in
         modify_this
           (fun s' => with_cache (JsMap.set (cfg_id roleConfig) cacheEntry (cache s')) s')
     end)
    (fun _ => Ret tt).

(** Lines 52-113.  The total computed after the loop (lines 105-106) only
    goes into the log. *)
Definition updateAllRoles : Prog unit :=
  s <- read_this ;;
  match guild s with
  | None => Ret tt
  | Some _ =>
      if isUpdating s then Ret tt
      else
        modify_this (with_isUpdating true) ;;
        try_finally
          (try_catch
             (s1 <- read_this ;;
              g <- deref_guild s1 ;;
              await_members_fetch g ;;
              for_of staffHierarchy cacheRole)
             (fun _ => Ret tt))
          (modify_this (with_isUpdating false))
  end.

Definition startAutoUpdate : Prog unit :=
  t <- setInterval ;;
  modify_this (with_updateInterval (Some t)).

Definition initialize (g : Guild) (autoUpdate : bool) : Prog unit :=
  modify_this (with_guild (Some g)) ;;
  await_own updateAllRoles ;;
  s <- read_this ;;
  match autoUpdate, updateInterval s with
  | true, None => startAutoUpdate
  | _, _ => Ret tt
  end.

Definition stopAutoUpdate : Prog unit :=
  s <- read_this ;;
  match updateInterval s with
  | Some t =>
      clearInterval t ;;
      modify_this (with_updateInterval None)
  | None => Ret tt
  end.

Definition refresh : Prog unit := await_own updateAllRoles.

(** The callback given to [setInterval]. *)
Definition autoUpdateTick : Prog unit := await_own updateAllRoles.

Definition clear : Prog unit := modify_this (with_cache JsMap.empty).
End Methods.

(** ** The runtime and the outside world *)

(** The state a method runs in: the fields of the instance, the timers the
    runtime has active, and how many times the outside world has been
    consulted so far. *)
Record Machine := mkMachine {
  this : RoleCache;
  timers : list Timeout;
  next_timer : Timeout;
  members_calls : nat;
  roles_calls : nat;
  clock_reads : nat
}.

Definition boot : Machine :=
  {| this := new_RoleCache; timers := []; next_timer := O;
     members_calls := O; roles_calls := O; clock_reads := O |}.

(** The outside world as an oracle: what the n-th bulk member fetch and the
    n-th role fetch settle to, and what the n-th reading of the clock is. *)
Record Env := mkEnv {
  members_fetch : nat -> Guild -> Settled unit;
  roles_fetch : nat -> Guild -> string -> Settled (option Role);
  clock : nat -> Z
}.

Definition with_this (s : RoleCache) (m : Machine) : Machine :=
  {| this := s; timers := timers m; next_timer := next_timer m;
     members_calls := members_calls m; roles_calls := roles_calls m;
     clock_reads := clock_reads m |}.

Definition count_clock_read (m : Machine) : Machine :=
  {| this := this m; timers := timers m; next_timer := next_timer m;
     members_calls := members_calls m; roles_calls := roles_calls m;
     clock_reads := S (clock_reads m) |}.

Definition count_members_call (m : Machine) : Machine :=
  {| this := this m; timers := timers m; next_timer := next_timer m;
     members_calls := S (members_calls m); roles_calls := roles_calls m;
     clock_reads := clock_reads m |}.

Definition count_roles_call (m : Machine) : Machine :=
  {| this := this m; timers := timers m; next_timer := next_timer m;
     members_calls := members_calls m; roles_calls := S (roles_calls m);
     clock_reads := clock_reads m |}.

(** [setInterval] hands out a handle not used before and the timer is
    active from then on. *)
Definition add_timer (m : Machine) : Machine :=
  {| this := this m; timers := timers m ++ [next_timer m];
     next_timer := S (next_timer m);
     members_calls := members_calls m; roles_calls := roles_calls m;
     clock_reads := clock_reads m |}.

Definition remove_timer (t : Timeout) (m : Machine) : Machine :=
  {| this := this m;
     timers := filter (fun t' => negb (Nat.eqb t' t)) (timers m);
     next_timer := next_timer m;
     members_calls := members_calls m; roles_calls := roles_calls m;
     clock_reads := clock_reads m |}.

Definition perform (env : Env) (a : action) (m : Machine) : result a * Machine :=
  match a return result a * Machine with
  | ReadThis => (this m, m)
  | WriteThis s => (tt, with_this s m)
  | DateNow => (clock env (clock_reads m), count_clock_read m)
  | SetInterval => (next_timer m, add_timer m)
  | ClearInterval t => (tt, remove_timer t m)
  | MembersFetch g => (members_fetch env (members_calls m) g, count_members_call m)
  | RolesFetch g id => (roles_fetch env (roles_calls m) g id, count_roles_call m)
  | AwaitOwn => (tt, m)
  end.

(** A call run to its end with nothing interleaved. *)
Fixpoint run {A : Type} (env : Env) (p : Prog A) (m : Machine)
  : Completion A * Machine :=
  match p with
  | Ret a => (Normal a, m)
  | Throw e => (Abrupt e, m)
  | Act a k => let (r, m') := perform env a m in run env (k r) m'
  end.

(** A call run up to its next [await]. *)
Inductive Suspended (A : Type) : Type :=
| Finished (c : Completion A)
| Awaiting (a : action) (k : result a -> Prog A).
Arguments Finished {A} c.
Arguments Awaiting {A} a k.

Fixpoint advance {A : Type} (env : Env) (p : Prog A) (m : Machine)
  : Suspended A * Machine :=
  match p with
  | Ret a => (Finished (Normal a), m)
  | Throw e => (Finished (Abrupt e), m)
  | Act a k =>
      if is_await a then (Awaiting a k, m)
      else let (r, m') := perform env a m in advance env (k r) m'
  end.

(** The states in which a call, run with nothing interleaved, is suspended
    at an [await]: the states other calls can find the instance in while
    this one is under way. *)
Fixpoint suspensions {A : Type} (env : Env) (p : Prog A) (m : Machine)
  : list Machine :=
  match p with
  | Ret _ => []
  | Throw _ => []
  | Act a k =>
      let (r, m') := perform env a m in
      if is_await a then m :: suspensions env (k r) m'
      else suspensions env (k r) m'
  end.

(** ** The read queries *)

(** [Array.prototype.sort] is stable; with the comparator [cmp], [a] comes
    before [b] when [cmp a b <= 0] and they are in that order already. *)
Section Sort.
Context {A : Type} (cmp : A -> A -> Z).

Fixpoint sort_insert (x : A) (l : list A) : list A :=
  match l with
  | [] => [x]
  | y :: l' => if cmp x y <=? 0 then x :: y :: l' else y :: sort_insert x l'
  end.

Fixpoint js_sort (l : list A) : list A :=
  match l with
  | [] => []
  | x :: l' => sort_insert x (js_sort l')
  end.
End Sort.

Definition getMembersByRole (s : RoleCache) (id : string) : option Collection :=
  match JsMap.get id (cache s) with
  | Some entry => Some (members entry)
  | None => None
  end.




Definition getRole (s : RoleCache) (id : string) : option Role :=
  match JsMap.get id (cache s) with
  | Some entry => Some (role entry)
  | None => None
  end.

Definition getHighestStaffRole (s : RoleCache) (userId : string)
  : option RoleCacheEntry :=
  let entries :=
    js_sort (fun a b => rank b - rank a)
      (filter (fun entry => JsMap.has userId (members entry))
         (JsMap.values (cache s))) in
  match entries with
  | e :: _ => Some e
  | [] => None
  end.

Definition isStaff (s : RoleCache) (userId : string) : bool :=
  existsb (fun entry => JsMap.has userId (members entry)) (JsMap.values (cache s)).

(** The inner loop of [getAllStaffMembers]: the members of one entry are
    added unless their id is there already. *)
Definition addMembers (allStaff : Collection) (ms : Collection) : Collection :=
  fold_left
    (fun acc kv =>
       if JsMap.has (fst kv) acc then acc else JsMap.set (fst kv) (snd kv) acc)
    ms allStaff.

Definition getAllStaffMembers (s : RoleCache) : Collection :=
  fold_left (fun allStaff entry => addMembers allStaff (members entry))
    (JsMap.values (cache s)) JsMap.empty.

Definition getRolesByRank (s : RoleCache) (descending : bool) : list RoleCacheEntry :=
  let entries := JsMap.values (cache s) in
  if descending then js_sort (fun a b => rank b - rank a) entries
  else js_sort (fun a b => rank a - rank b) entries.

Record Breakdown := mkBreakdown {
  b_roleName : string;
  b_rank : Z;
  b_memberCount : nat;
  b_roleId : string
}.

Record Stats := mkStats {
  totalRoles : nat;
  totalStaffMembers : nat;
  roleBreakdown : list Breakdown;
  oldestCacheAge : Z
}.

(** [Math.min(...xs)] on a list that is not empty. *)
Definition Math_min (x : Z) (xs : list Z) : Z := fold_left Z.min xs x.

Definition getStats : Prog Stats :=
  s <- read_this ;;
  let allStaff := getAllStaffMembers s in
  let breakdown :=
    js_sort (fun a b => b_rank b - b_rank a)
      (map (fun entry =>
              {| b_roleName := roleName entry; b_rank := rank entry;
                 b_memberCount := JsMap.size (members entry);
                 b_roleId := roleId entry |})
         (JsMap.values (cache s))) in
  let cacheEntries := JsMap.values (cache s) in
  oldestCache <-
    match map lastUpdated cacheEntries with
    | x :: xs => Ret (Math_min x xs)
    | [] => Date_now
    end ;;
  now <- Date_now ;;
  Ret {| totalRoles := JsMap.size (cache s);
         totalStaffMembers := JsMap.size allStaff;
         roleBreakdown := breakdown;
         oldestCacheAge := now - oldestCache |}.

(** ** Vocabulary of the properties *)

(** The role fetch produced a role: not [null], not a rejection. *)
Definition resolves (r : Settled (option Role)) : bool :=
  match r with
  | Fulfilled (Some _) => true
  | _ => false
  end.

(** The configured roles that resolve in guild [g] when they are asked for
    one after the other, the first of them by role fetch number [n]. *)
Fixpoint resolving (env : Env) (g : Guild) (n : nat) (cfg : list RoleConfig)
  : list RoleConfig :=
  match cfg with
  | [] => []
  | rc :: rest =>
      if resolves (roles_fetch env n g (cfg_id rc))
      then rc :: resolving env g (S n) rest
      else resolving env g (S n) rest
  end.

(** The entry the refresh pass writes for [rc] when its role is [r] and the
    clock reads [now]. *)
Definition entry_of (rc : RoleConfig) (r : Role) (now : Z) : RoleCacheEntry :=
  {| roleId := cfg_id rc; roleName := cfg_name rc; rank := cfg_rank rc;
     role := r; members := role_members r; lastUpdated := now |}.

(** What one iteration of the loop of [updateAllRoles] does to the machine
    when the guild is bound to [g]. *)
Definition cacheRole_step (env : Env) (g : Guild) (m : Machine) (rc : RoleConfig)
  : Machine :=
  match roles_fetch env (roles_calls m) g (cfg_id rc) with
  | Fulfilled (Some r) =>
      let m1 := count_clock_read (count_roles_call m) in
      with_this
        (with_cache
           (JsMap.set (cfg_id rc) (entry_of rc r (clock env (clock_reads m)))
              (cache (this m)))
           (this m))
        m1
  | _ => count_roles_call m
  end.

(** All entries carry one and the same [lastUpdated]. *)
Definition uniform_lastUpdated (c : JsMap.t RoleCacheEntry) : Prop :=
  exists t, forall id e, JsMap.get id c = Some e -> lastUpdated e = t.

(** The member object recorded for [u] by the first entry, in iteration
    order, whose member set contains [u]. *)
Fixpoint first_holder (u : string) (entries : list RoleCacheEntry)
  : option GuildMember :=
  match entries with
  | [] => None
  | e :: rest =>
      match JsMap.get u (members e) with
      | Some mem => Some mem
      | None => first_holder u rest
      end
  end.

Definition sum_member_sizes (entries : list RoleCacheEntry) : nat :=
  fold_right (fun e acc => (JsMap.size (members e) + acc)%nat) O entries.

(** No user is in the member sets of two entries. *)
Definition no_shared_user (entries : list RoleCacheEntry) : Prop :=
  forall i j ei ej u,
    i <> j ->
    nth_error entries i = Some ei ->
    nth_error entries j = Some ej ->
    JsMap.has u (members ei) = true ->
    JsMap.has u (members ej) = false.

(** The loop of [updateAllRoles] over the hierarchy. *)
Definition pass_loop (env : Env) (g : Guild) (cfg : list RoleConfig) (m : Machine)
  : Machine :=
  fold_left (cacheRole_step env g) cfg m.

(** The machine as a completed pass leaves it: the flag is set, the members
    are fetched, the roles are gone through, the flag is cleared. *)
Definition pass_result (env : Env) (g : Guild) (cfg : list RoleConfig) (m : Machine)
  : Machine :=
  let m1 := count_members_call (with_this (with_isUpdating true (this m)) m) in
  let m2 := pass_loop env g cfg m1 in
  with_this (with_isUpdating false (this m2)) m2.

(** The entry [e0] that role [id] had is still the one in [c], or [c] has
    an entry written for [id] by a refresh pass over [cfg] in its place. *)
Definition kept_or_rewritten (cfg : list RoleConfig) (id : string)
    (e0 : RoleCacheEntry) (c : JsMap.t RoleCacheEntry) : Prop :=
  JsMap.get id c = Some e0 \/
  exists rc r t,
    In rc cfg /\ cfg_id rc = id /\ JsMap.get id c = Some (entry_of rc r t).

(** A call made the set of active timers grow. *)
Definition starts_timer (before after : Machine) : Prop :=
  exists t, ~ In t (timers before) /\ In t (timers after).

(** ** The states the instance can be in between calls *)

(** What can be done to the instance from outside: the public methods, and
    the runtime firing the timer. *)
Inductive call : Type :=
| CallInitialize (g : Guild) (autoUpdate : bool)
| CallRefresh
| CallStopAutoUpdate
| CallClear
| CallGetStats
| TimerTick.

Definition method (cfg : list RoleConfig) (c : call) : Prog unit :=
  match c with
  | CallInitialize g autoUpdate => initialize cfg g autoUpdate
  | CallRefresh => refresh cfg
  | CallStopAutoUpdate => stopAutoUpdate
  | CallClear => clear
  | CallGetStats => getStats ;; Ret tt
  | TimerTick => autoUpdateTick cfg
  end.

(** The states reached from the fresh singleton by calls that each run to
    their end, whatever the outside world answers. *)
Inductive reachable (cfg : list RoleConfig) : Machine -> Prop :=
| reach_boot : reachable cfg boot
| reach_call (m : Machine) (env : Env) (c : call) :
    reachable cfg m -> reachable cfg (snd (run env (method cfg c) m)).

(** Between calls no pass is in flight, the cache holds each role id once,
    and the active timers are exactly the one whose handle the instance
    holds, if it holds one. *)
Definition at_rest (m : Machine) : Prop :=
  isUpdating (this m) = false /\
  JsMap.wf (cache (this m)) /\
  timers m = match updateInterval (this m) with
             | Some t => [t]
             | None => []
             end.

(** ** A guild to try things on *)

Module Scenario.
Definition theGuild : Guild := mkGuild "guild".

Definition Mod : RoleConfig := mkRoleConfig "100" "Mod" 1.
Definition SrMod : RoleConfig := mkRoleConfig "200" "SrMod" 2.
Definition Admin : RoleConfig := mkRoleConfig "300" "Admin" 3.
Definition hierarchy : list RoleConfig := [Mod; SrMod; Admin].

Definition X : GuildMember := mkMember "x" "X".
Definition Y : GuildMember := mkMember "y" "Y".

(** Member X holds Mod and Admin, member Y holds SrMod. *)
Definition lookup (id : string) : option Role :=
  if String.eqb id "100" then Some (mkRole "100" [("x", X)])
  else if String.eqb id "200" then Some (mkRole "200" [("y", Y)])
  else if String.eqb id "300" then Some (mkRole "300" [("x", X)])
  else None.

(** All three roles exist; the clock advances by a millisecond from one
    reading to the next. *)
Definition guildA : Env :=
  {| members_fetch := fun _ _ => Fulfilled tt;
     roles_fetch := fun _ _ id => Fulfilled (lookup id);
     clock := fun n => 1000 + Z.of_nat n |}.

(** The Admin role does not exist in the guild (any more); the clock
    stands at 5000 throughout. *)
Definition guildB : Env :=
  {| members_fetch := fun _ _ => Fulfilled tt;
     roles_fetch := fun _ _ id =>
       if String.eqb id "300" then Fulfilled None else Fulfilled (lookup id);
     clock := fun _ => 5000 |}.

(** The bulk member fetch is rejected. *)
Definition outage : Env :=
  {| members_fetch := fun _ _ => Rejected "DiscordAPIError";
     roles_fetch := fun _ _ id => Fulfilled (lookup id);
     clock := fun n => 9000 + Z.of_nat n |}.

(** The instance bound to the guild, nothing cached, nothing running. *)
Definition bound : Machine :=
  with_this (with_guild (Some theGuild) new_RoleCache) boot.

(** After [initialize(guild, true)] in guild A. *)
Definition initialized : Machine :=
  snd (run guildA (initialize hierarchy theGuild true) boot).

(** A [refresh()] that has reached the bulk member fetch and waits for
    it. *)
Definition in_flight : Machine :=
  snd (advance guildA (refresh hierarchy) initialized).

(** A user in roles ranked 1, 5 and 3, in that iteration order. *)
Definition ranked (id : string) (r : Z) : string * RoleCacheEntry :=
  (id, {| roleId := id; roleName := id; rank := r;
          role := mkRole id [("u", mkMember "u" "U")];
          members := [("u", mkMember "u" "U")];
          lastUpdated := 0 |}).

Definition three_ranks : RoleCache :=
  with_cache [ranked "a" 1; ranked "b" 5; ranked "c" 3] new_RoleCache.
(** The instance bound to the guild with one entry cached, for role 300. *)
Definition three_hundred : RoleCache :=
  with_guild (Some theGuild) (with_cache [ranked "300" 3] new_RoleCache).
End Scenario.

(** ** Vocabulary of the further properties *)


(** Calls made one after the other, each run to its end, each with its own
    answers from the outside world. *)
Fixpoint run_calls (cfg : list RoleConfig) (cs : list (Env * call)) (m : Machine)
  : Machine :=
  match cs with
  | [] => m
  | (env, c) :: cs' => run_calls cfg cs' (snd (run env (method cfg c) m))
  end.

Definition is_initialize (c : call) : bool :=
  match c with
  | CallInitialize _ _ => true
  | _ => false
  end.

(** The element of [roleBreakdown] that [getStats] makes of an entry. *)
Definition breakdown_of (entry : RoleCacheEntry) : Breakdown :=
  {| b_roleName := roleName entry; b_rank := rank entry;
     b_memberCount := JsMap.size (members entry);
     b_roleId := roleId entry |}.

Definition sum_memberCount (bs : list Breakdown) : nat :=
  fold_right (fun b acc => (b_memberCount b + acc)%nat) O bs.

(** Every member object is filed under its own id, as discord.js does. *)
Definition keyed_by_id (s : RoleCache) : Prop :=
  forall e k mem,
    In e (JsMap.values (cache s)) -> In (k, mem) (members e) ->
    member_id mem = k.

(** ** The callers of the cache: the reputation command *)

(** [String.prototype.includes] *)
Fixpoint includes (s sub : string) : bool :=
  if String.prefix sub s then true
  else match s with
       | EmptyString => false
       | String _ s' => includes s' sub
       end.

(** [Collection.prototype.filter] and [Collection.prototype.first(n)] *)
Definition collection_filter (f : GuildMember -> bool) (c : Collection)
  : Collection :=
  filter (fun kv => f (snd kv)) c.

Definition collection_first (n : nat) (c : Collection) : list GuildMember :=
  firstn n (JsMap.values c).

(** One suggestion of an autocomplete response. *)
Record Choice := mkChoice {
  choice_name : string;
  choice_value : string
}.

(** How the command is answered before the database is involved. *)
Inductive Verdict : Type :=
| AntiAbuse
| AccessDenied
| InvalidTarget
| NotFoundInCache
| Target (targetMember : GuildMember).

Section ReputationCommand.
(** [member.user.username], [member.nickname] and
    [String.prototype.toLowerCase]. *)
Variable username : GuildMember -> string.
Variable nickname : GuildMember -> option string.
Variable toLowerCase : string -> string.
(** [staffConfig.developerIds] and [staffConfig.roles.manager]. *)
Variable developerIds : list string.
Variable manager : string.

(** The filter of [autocomplete]: the query is in the user name or in the
    nickname, case aside. *)
Definition matches_query (focusedValue : string) (member : GuildMember) : bool :=
  let uname := toLowerCase (username member) in
  let nick := match nickname member with
              | Some n => toLowerCase n
              | None => ""
              end in
  includes uname focusedValue || includes nick focusedValue.

(** What [autocomplete] responds with, for the focused text [focused] (the
    reputation command that uses the cache). *)
Definition autocomplete (s : RoleCache) (focused : string) : list Choice :=
  let focusedValue := toLowerCase focused in
  let allStaff := getAllStaffMembers s in
  if Nat.eqb (JsMap.size allStaff) 0 then []
  else
    let filtered := collection_filter (matches_query focusedValue) allStaff in
    map (fun member =>
           let highestRole := getHighestStaffRole s (member_id member) in
           let rname := match highestRole with
                        | Some e => roleName e
                        | None => "Unknown"
                        end in
           {| choice_name := username member ++ " [" ++ rname ++ "]";
              choice_value := member_id member |})
      (collection_first 25 filtered).

(** The checks [execute] makes before it turns to the database: the caller
    [userId] with the roles [executorRoles] acts on [targetId]. *)
Definition execute_checks (s : RoleCache) (userId : string)
    (executorRoles : list string) (targetId : string) : Verdict :=
  if String.eqb targetId userId then AntiAbuse
  else
    let isDeveloper := existsb (String.eqb userId) developerIds in
    let isManager := existsb (String.eqb manager) executorRoles in
    if negb isDeveloper && negb isManager then AccessDenied
    else if negb (isStaff s targetId) then InvalidTarget
    else
      let allStaff := getAllStaffMembers s in
      match JsMap.get targetId allStaff with
      | None => NotFoundInCache
      | Some targetMember => Target targetMember
      end.
End ReputationCommand.

(** ** The callers of the cache: the cache command *)


(** ** More to try things on *)

Module Examples.
(** Two roles of the same rank, both held by user u. *)
Definition tied : RoleCache :=
  with_cache [Scenario.ranked "a" 5; Scenario.ranked "b" 5] new_RoleCache.

Definition uname (m : GuildMember) : string := displayName m.
Definition nick (m : GuildMember) : option string := None.
Definition lower (s : string) : string := s.

(** One full start of the bot's cache and a manual refresh afterwards. *)
Definition session : list (Env * call) :=
  [(Scenario.guildA, CallInitialize Scenario.theGuild true);
   (Scenario.guildB, CallRefresh)].
End Examples.

(** ** Facts about [JsMap] *)

Module JsMapFacts.
Section WithValue.
Context {V : Type}.
Implicit Types (m : JsMap.t V) (k : string) (v : V).

Lemma get_set_same k v m : JsMap.get k (JsMap.set k v m) = Some v.
Proof.
  induction m as [|[k' v'] m IH]; simpl.
  - now rewrite String.eqb_refl.
  - destruct (String.eqb k k') eqn:E; simpl.
    + now rewrite String.eqb_refl.
    + now rewrite E.
Qed.

Lemma get_set_other k k' v m :
  k' <> k -> JsMap.get k' (JsMap.set k v m) = JsMap.get k' m.
Proof.
  intros Hne. induction m as [|[k0 v0] m IH]; simpl.
  - apply String.eqb_neq in Hne. now rewrite Hne.
  - destruct (String.eqb k k0) eqn:E; simpl.
    + apply String.eqb_eq in E. subst k0.
      apply String.eqb_neq in Hne. now rewrite Hne.
    + now rewrite IH.
Qed.

Lemma has_In_keys k m : JsMap.has k m = true <-> In k (JsMap.keys m).
Proof.
  unfold JsMap.has. induction m as [|[k' v'] m IH]; simpl.
  - split; [discriminate | tauto].
  - destruct (String.eqb k k') eqn:E.
    + apply String.eqb_eq in E. subst. tauto.
    + apply String.eqb_neq in E. rewrite IH. split; [tauto|].
      intros [H|H]; [congruence | exact H].
Qed.

Lemma has_false_keys k m : JsMap.has k m = false <-> ~ In k (JsMap.keys m).
Proof.
  rewrite <- has_In_keys. destruct (JsMap.has k m); split; congruence.
Qed.


Lemma keys_set k v m :
  JsMap.keys (JsMap.set k v m) =
  if JsMap.has k m then JsMap.keys m else JsMap.keys m ++ [k].
Proof.
  unfold JsMap.has. induction m as [|[k' v'] m IH]; simpl; [reflexivity|].
  destruct (String.eqb k k') eqn:E; simpl.
  - apply String.eqb_eq in E. now subst.
  - rewrite IH. now destruct (JsMap.get k m).
Qed.

Lemma has_set k k' v m :
  JsMap.has k' (JsMap.set k v m) = (String.eqb k' k || JsMap.has k' m)%bool.
Proof.
  unfold JsMap.has. destruct (String.eqb k' k) eqn:E.
  - apply String.eqb_eq in E. subst. now rewrite get_set_same.
  - apply String.eqb_neq in E. now rewrite get_set_other.
Qed.

Lemma wf_set k v m : JsMap.wf m -> JsMap.wf (JsMap.set k v m).
Proof.
  unfold JsMap.wf. rewrite keys_set. intros Hm.
  destruct (JsMap.has k m) eqn:E; [exact Hm|].
  apply has_false_keys in E.
  apply NoDup_app; [exact Hm | repeat constructor; simpl; tauto |].
  intros x Hx [<-|[]]. tauto.
Qed.

Lemma wf_values_get v m :
  JsMap.wf m -> In v (JsMap.values m) -> exists k, JsMap.get k m = Some v.
Proof.
  unfold JsMap.wf. induction m as [|[k' v'] m IH]; simpl; [intros _ []|].
  intros Hnd [->|Hin].
  - exists k'. now rewrite String.eqb_refl.
  - inversion Hnd as [|? ? Hk' Hnd']; subst.
    destruct (IH Hnd' Hin) as (k & Hk). exists k.
    destruct (String.eqb k k') eqn:E; [|exact Hk].
    apply String.eqb_eq in E. subst k'. exfalso. apply Hk'.
    apply has_In_keys. unfold JsMap.has. now rewrite Hk.
Qed.

Lemma size_keys m : JsMap.size m = List.length (JsMap.keys m).
Proof. unfold JsMap.size, JsMap.keys. now rewrite length_map. Qed.
End WithValue.
End JsMapFacts.

(** ** Running composed programs *)

Section RunFacts.
Variable env : Env.

Lemma run_bind {A B} (p : Prog A) (f : A -> Prog B) m :
  run env (bind p f) m =
  match run env p m with
  | (Normal a, m') => run env (f a) m'
  | (Abrupt e, m') => (Abrupt e, m')
  end.
Proof.
  revert m. induction p as [a|e|a k IH]; intros m; simpl; try reflexivity.
  destruct (perform env a m) as [r m']. apply IH.
Qed.

Lemma run_try_catch {A} (p : Prog A) (h : Error -> Prog A) m :
  run env (try_catch p h) m =
  match run env p m with
  | (Normal a, m') => (Normal a, m')
  | (Abrupt e, m') => run env (h e) m'
  end.
Proof.
  revert m. induction p as [a|e|a k IH]; intros m; simpl; try reflexivity.
  destruct (perform env a m) as [r m']. apply IH.
Qed.

Lemma run_try_finally {A} (p : Prog A) (f : Prog unit) m :
  run env (try_finally p f) m =
  match run env p m with
  | (c, m') =>
      match run env f m' with
      | (Normal _, m'') => (c, m'')
      | (Abrupt e, m'') => (Abrupt e, m'')
      end
  end.
Proof.
  revert m. induction p as [a|e|a k IH]; intros m; simpl.
  - rewrite run_bind. now destruct (run env f m) as [[u|e] m'].
  - rewrite run_bind. now destruct (run env f m) as [[u|e'] m'].
  - destruct (perform env a m) as [r m']. apply IH.
Qed.

(** Running to the end is running to the next [await], letting the
    promise settle, and running on. *)
Lemma run_advance {A} (p : Prog A) m :
  run env p m =
  match advance env p m with
  | (Finished c, m') => (c, m')
  | (Awaiting a k, m') => let (r, m'') := perform env a m' in run env (k r) m''
  end.
Proof.
  revert m. induction p as [a|e|a k IH]; intros m; simpl; try reflexivity.
  destruct (is_await a); [reflexivity|].
  destruct (perform env a m) as [r m']. apply IH.
Qed.
End RunFacts.

(** ** The refresh pass *)

Section PassFacts.
Variable env : Env.
Variable g : Guild.

Lemma run_modify_this (f : RoleCache -> RoleCache) m :
  run env (modify_this f) m = (Normal tt, with_this (f (this m)) m).
Proof using. reflexivity. Qed.

Lemma run_cacheRole rc m :
  guild (this m) = Some g ->
  run env (cacheRole rc) m = (Normal tt, cacheRole_step env g m rc).
Proof.
  intros Hg. unfold cacheRole, cacheRole_step.
  rewrite run_try_catch. simpl. unfold deref_guild. rewrite Hg. simpl.
  destruct (roles_fetch env (roles_calls m) g (cfg_id rc)) as [[r|]|e];
    reflexivity.
Qed.

(** What an iteration leaves alone. *)
Lemma step_frame rc m :
  let m' := cacheRole_step env g m rc in
  guild (this m') = guild (this m) /\
  updateInterval (this m') = updateInterval (this m) /\
  isUpdating (this m') = isUpdating (this m) /\
  timers m' = timers m /\
  next_timer m' = next_timer m /\
  members_calls m' = members_calls m /\
  roles_calls m' = S (roles_calls m) /\
  (clock_reads m <= clock_reads m')%nat.
Proof.
  unfold cacheRole_step.
  destruct (roles_fetch env (roles_calls m) g (cfg_id rc)) as [[r|]|e];
    simpl; repeat split; auto.
Qed.

Lemma loop_frame cfg : forall m,
  let m' := pass_loop env g cfg m in
  guild (this m') = guild (this m) /\
  updateInterval (this m') = updateInterval (this m) /\
  isUpdating (this m') = isUpdating (this m) /\
  timers m' = timers m /\
  next_timer m' = next_timer m /\
  members_calls m' = members_calls m /\
  roles_calls m' = (roles_calls m + List.length cfg)%nat /\
  (clock_reads m <= clock_reads m')%nat.
Proof.
  induction cfg as [|rc rest IH]; intros m; simpl.
  - repeat split; auto; lia.
  - specialize (IH (cacheRole_step env g m rc)).
    pose proof (step_frame rc m) as Hs. simpl in IH, Hs.
    unfold pass_loop in IH.
    destruct IH as (I1 & I2 & I3 & I4 & I5 & I6 & I7 & I8).
    destruct Hs as (S1 & S2 & S3 & S4 & S5 & S6 & S7 & S8).
    unfold pass_loop. simpl.
    repeat split; try congruence; lia.
Qed.

Lemma run_loop cfg : forall m,
  guild (this m) = Some g ->
  run env (for_of cfg cacheRole) m = (Normal tt, pass_loop env g cfg m).
Proof.
  induction cfg as [|rc rest IH]; intros m Hg; cbn [for_of]; [reflexivity|].
  rewrite run_bind, (run_cacheRole rc m Hg).
  apply IH. destruct (step_frame rc m) as (-> & _). exact Hg.
Qed.

(** The three ways [updateAllRoles] can go. *)
Lemma run_updateAllRoles_unbound cfg m :
  guild (this m) = None ->
  run env (updateAllRoles cfg) m = (Normal tt, m).
Proof using. intros H. unfold updateAllRoles. simpl. now rewrite H. Qed.

Lemma run_updateAllRoles_busy cfg m :
  isUpdating (this m) = true ->
  run env (updateAllRoles cfg) m = (Normal tt, m).
Proof using.
  intros H. unfold updateAllRoles. simpl. rewrite H.
  now destruct (guild (this m)).
Qed.

Lemma run_pass_body cfg m :
  guild (this m) = Some g ->
  run env
    (s1 <- read_this ;;
     g0 <- deref_guild s1 ;;
     await_members_fetch g0 ;;
     for_of cfg cacheRole) m =
  match members_fetch env (members_calls m) g with
  | Fulfilled _ => (Normal tt, pass_loop env g cfg (count_members_call m))
  | Rejected e => (Abrupt e, count_members_call m)
  end.
Proof.
  intros Hg. rewrite run_bind. cbn [run read_this perform].
  unfold deref_guild. rewrite Hg. cbn [bind].
  rewrite run_bind. cbn [run await_members_fetch perform].
  destruct (members_fetch env (members_calls m) g) as [u|e]; cbn [settle run].
  - apply run_loop. exact Hg.
  - reflexivity.
Qed.

Lemma run_updateAllRoles_started cfg m :
  guild (this m) = Some g ->
  isUpdating (this m) = false ->
  run env (updateAllRoles cfg) m =
  match members_fetch env (members_calls m) g with
  | Fulfilled _ => (Normal tt, pass_result env g cfg m)
  | Rejected _ =>
      (Normal tt, count_members_call (with_this (with_isUpdating false (this m)) m))
  end.
Proof.
  intros Hg Hu. unfold updateAllRoles.
  rewrite run_bind. cbn [run read_this perform]. rewrite Hg, Hu.
  rewrite run_bind, run_modify_this, run_try_finally, run_try_catch.
  rewrite run_pass_body by exact Hg.
  cbn [members_calls with_this].
  destruct (members_fetch env (members_calls m) g) as [u|e]; reflexivity.
Qed.

Lemma run_updateAllRoles_aborted cfg m e :
  guild (this m) = Some g ->
  isUpdating (this m) = false ->
  members_fetch env (members_calls m) g = Rejected e ->
  run env (updateAllRoles cfg) m =
  (Normal tt, count_members_call (with_this (with_isUpdating false (this m)) m)).
Proof.
  intros Hg Hu Hf. rewrite run_updateAllRoles_started by assumption.
  now rewrite Hf.
Qed.

Lemma run_updateAllRoles_completed cfg m :
  guild (this m) = Some g ->
  isUpdating (this m) = false ->
  members_fetch env (members_calls m) g = Fulfilled tt ->
  run env (updateAllRoles cfg) m = (Normal tt, pass_result env g cfg m).
Proof.
  intros Hg Hu Hf. rewrite run_updateAllRoles_started by assumption.
  now rewrite Hf.
Qed.
End PassFacts.

(** ** What a pass does to the cache *)

Section PassCacheFacts.
Variable env : Env.
Variable g : Guild.

Lemma step_cache rc m :
  cache (this (cacheRole_step env g m rc)) =
  match roles_fetch env (roles_calls m) g (cfg_id rc) with
  | Fulfilled (Some r) =>
      JsMap.set (cfg_id rc) (entry_of rc r (clock env (clock_reads m)))
        (cache (this m))
  | _ => cache (this m)
  end.
Proof.
  unfold cacheRole_step.
  now destruct (roles_fetch env (roles_calls m) g (cfg_id rc)) as [[r|]|e].
Qed.

Lemma step_clock rc m :
  clock_reads (cacheRole_step env g m rc) =
  if resolves (roles_fetch env (roles_calls m) g (cfg_id rc))
  then S (clock_reads m) else clock_reads m.
Proof.
  unfold cacheRole_step.
  now destruct (roles_fetch env (roles_calls m) g (cfg_id rc)) as [[r|]|e].
Qed.

Lemma resolving_In cfg : forall base rc,
  In rc (resolving env g base cfg) <->
  exists n, nth_error cfg n = Some rc /\
            resolves (roles_fetch env (base + n) g (cfg_id rc)) = true.
Proof.
  induction cfg as [|rc0 rest IH]; intros base rc; simpl.
  - split; [tauto|]. intros ([|n] & H & _); discriminate.
  - assert (Hrest : In rc (resolving env g (S base) rest) <->
                    exists n, nth_error (rc0 :: rest) (S n) = Some rc /\
                      resolves (roles_fetch env (base + S n) g (cfg_id rc)) = true).
    { rewrite IH. split; intros (n & H1 & H2); exists n; split; auto.
      - now replace (base + S n)%nat with (S base + n)%nat by lia.
      - now replace (S base + n)%nat with (base + S n)%nat by lia. }
    destruct (resolves (roles_fetch env base g (cfg_id rc0))) eqn:E; simpl.
    + rewrite Hrest. split.
      * intros [<-|(n & H)].
        -- exists O. simpl. now rewrite Nat.add_0_r.
        -- now exists (S n).
      * intros ([|n] & H1 & H2).
        -- left. simpl in H1. congruence.
        -- right. now exists n.
    + rewrite Hrest. split.
      * intros (n & H). now exists (S n).
      * intros ([|n] & H1 & H2).
        -- simpl in H1. injection H1 as <-.
           rewrite Nat.add_0_r in H2. congruence.
        -- now exists n.
Qed.

(** An entry whose role never resolves during the loop is left as it
    was. *)
Lemma loop_retains cfg id : forall m,
  (forall n rc, nth_error cfg n = Some rc -> cfg_id rc = id ->
     resolves (roles_fetch env (roles_calls m + n) g id) = false) ->
  JsMap.get id (cache (this (pass_loop env g cfg m))) =
  JsMap.get id (cache (this m)).
Proof.
  induction cfg as [|rc rest IH]; intros m Hun; [reflexivity|].
  unfold pass_loop. simpl. fold (pass_loop env g rest (cacheRole_step env g m rc)).
  rewrite IH.
  - rewrite step_cache.
    destruct (roles_fetch env (roles_calls m) g (cfg_id rc)) as [[r|]|e] eqn:E;
      try reflexivity.
    destruct (string_dec (cfg_id rc) id) as [Heq|Hne].
    + specialize (Hun O rc eq_refl Heq). rewrite Nat.add_0_r in Hun.
      rewrite <- Heq, E in Hun. discriminate.
    + apply JsMapFacts.get_set_other. congruence.
  - intros n rc' Hn Hid.
    destruct (step_frame env g rc m) as (_ & _ & _ & _ & _ & _ & -> & _).
    replace (S (roles_calls m) + n)%nat with (roles_calls m + S n)%nat by lia.
    now apply (Hun (S n) rc').
Qed.

(** The loop never takes a key away. *)
Lemma loop_keeps_keys cfg id : forall m,
  JsMap.has id (cache (this m)) = true ->
  JsMap.has id (cache (this (pass_loop env g cfg m))) = true.
Proof.
  induction cfg as [|rc rest IH]; intros m H; [exact H|].
  unfold pass_loop. simpl. apply IH. rewrite step_cache.
  destruct (roles_fetch env (roles_calls m) g (cfg_id rc)) as [[r|]|e]; auto.
  rewrite JsMapFacts.has_set, H. apply orb_true_r.
Qed.

Lemma loop_wf cfg : forall m,
  JsMap.wf (cache (this m)) ->
  JsMap.wf (cache (this (pass_loop env g cfg m))).
Proof.
  induction cfg as [|rc rest IH]; intros m H; [exact H|].
  unfold pass_loop. simpl. apply IH. rewrite step_cache.
  destruct (roles_fetch env (roles_calls m) g (cfg_id rc)) as [[r|]|e]; auto.
  now apply JsMapFacts.wf_set.
Qed.

(** The keys after the loop: those from before, and the roles that
    resolved. *)
Lemma loop_keys cfg id : forall m,
  JsMap.has id (cache (this (pass_loop env g cfg m))) = true <->
  JsMap.has id (cache (this m)) = true \/
  In id (map cfg_id (resolving env g (roles_calls m) cfg)).
Proof.
  induction cfg as [|rc rest IH]; intros m; simpl; [tauto|].
  unfold pass_loop. simpl. fold (pass_loop env g rest (cacheRole_step env g m rc)).
  rewrite IH, step_cache.
  destruct (step_frame env g rc m) as (_ & _ & _ & _ & _ & _ & -> & _).
  destruct (roles_fetch env (roles_calls m) g (cfg_id rc)) as [[r|]|e]; simpl;
    try tauto.
  rewrite JsMapFacts.has_set, orb_true_iff, String.eqb_eq.
  split; intros H; intuition auto.
Qed.

(** With distinct role ids, none of them cached yet, the loop appends the
    roles that resolve, in hierarchy order. *)
Lemma loop_appends cfg : forall m,
  NoDup (map cfg_id cfg) ->
  (forall rc, In rc cfg -> JsMap.has (cfg_id rc) (cache (this m)) = false) ->
  JsMap.keys (cache (this (pass_loop env g cfg m))) =
  JsMap.keys (cache (this m)) ++ map cfg_id (resolving env g (roles_calls m) cfg).
Proof.
  induction cfg as [|rc rest IH]; intros m Hnd Hfresh; simpl.
  - now rewrite app_nil_r.
  - inversion Hnd as [|? ? Hnotin Hnd']; subst.
    unfold pass_loop. simpl.
    fold (pass_loop env g rest (cacheRole_step env g m rc)).
    destruct (step_frame env g rc m) as (_ & _ & _ & _ & _ & _ & Hr & _).
    rewrite IH, Hr, step_cache; auto.
    + destruct (roles_fetch env (roles_calls m) g (cfg_id rc)) as [[r|]|e]; simpl;
        try reflexivity.
      rewrite JsMapFacts.keys_set, (Hfresh rc) by now left.
      now rewrite <- app_assoc.
    + intros rc' Hin. rewrite step_cache.
      destruct (roles_fetch env (roles_calls m) g (cfg_id rc)) as [[r|]|e];
        try (apply Hfresh; now right).
      rewrite JsMapFacts.has_set, (Hfresh rc') by now right.
      rewrite orb_false_r. apply String.eqb_neq. intros Heq.
      apply Hnotin. rewrite <- Heq. now apply in_map.
Qed.
End PassCacheFacts.

(** ** Sorting by a key, largest first *)

Section SortFacts.
Context {A : Type} (key : A -> Z).

Let cmp : A -> A -> Z := fun a b => key b - key a.

Lemma sort_insert_perm x l : Permutation (sort_insert cmp x l) (x :: l).
Proof.
  induction l as [|y l IH]; simpl; [reflexivity|].
  destruct (cmp x y <=? 0); [reflexivity|].
  rewrite IH. apply perm_swap.
Qed.

Lemma js_sort_perm l : Permutation (js_sort cmp l) l.
Proof.
  induction l as [|x l IH]; simpl; [reflexivity|].
  rewrite sort_insert_perm. now constructor.
Qed.

Lemma js_sort_nil l : js_sort cmp l = [] <-> l = [].
Proof.
  split; [|now intros ->]. intros H.
  pose proof (js_sort_perm l) as P. rewrite H in P.
  now apply Permutation_nil.
Qed.

(** The first element of the sorted array is the first of the elements
    with the largest key. *)
Lemma js_sort_head l : forall e rest,
  js_sort cmp l = e :: rest ->
  exists l1 l2,
    l = l1 ++ e :: l2 /\
    (forall a, In a l1 -> key a < key e) /\
    (forall a, In a l2 -> key a <= key e).
Proof.
  induction l as [|x l IH]; intros e rest H; simpl in H; [discriminate|].
  destruct (js_sort cmp l) as [|y ys] eqn:E.
  - apply (proj1 (js_sort_nil l)) in E. subst l. simpl in H. injection H as <- <-.
    exists [], []. simpl. repeat split; intros a [].
  - destruct (IH y ys eq_refl) as (l1 & l2 & Hl & H1 & H2).
    simpl in H. unfold cmp in H at 1.
    destruct (key y - key x <=? 0) eqn:C.
    + injection H as <- <-. apply Z.leb_le in C.
      exists [], l. simpl. repeat split; [intros a [] |].
      intros a Ha. subst l. apply in_app_or in Ha.
      destruct Ha as [Ha|[<-|Ha]].
      * specialize (H1 a Ha). lia.
      * lia.
      * specialize (H2 a Ha). lia.
    + injection H as <- <-. apply Z.leb_gt in C.
      exists (x :: l1), l2. subst l. simpl. repeat split; auto.
      intros a [<-|Ha]; [lia | auto].
Qed.
Lemma sort_insert_sorted x l :
  StronglySorted (fun a b => key b <= key a) l ->
  StronglySorted (fun a b => key b <= key a) (sort_insert cmp x l).
Proof.
  induction 1 as [|y l Hl IH Hy]; simpl.
  - repeat constructor.
  - unfold cmp at 1. destruct (key y - key x <=? 0) eqn:C.
    + apply Z.leb_le in C. constructor; [now constructor|].
      constructor; [lia|].
      rewrite Forall_forall in *. intros a Ha. specialize (Hy a Ha). lia.
    + apply Z.leb_gt in C. constructor; [exact IH|].
      rewrite Forall_forall in *. intros a Ha.
      apply (Permutation_in _ (sort_insert_perm x l)) in Ha.
      destruct Ha as [<-|Ha]; [lia | now apply Hy].
Qed.

(** The result is in descending order of the key ... *)
Lemma js_sort_sorted l :
  StronglySorted (fun a b => key b <= key a) (js_sort cmp l).
Proof.
  induction l as [|x l IH]; simpl; [constructor|].
  now apply sort_insert_sorted.
Qed.

Lemma sort_insert_stable v x l :
  filter (fun a => key a =? v) (sort_insert cmp x l) =
  filter (fun a => key a =? v) (x :: l).
Proof.
  induction l as [|y l IH]; [reflexivity|].
  simpl sort_insert. unfold cmp at 1.
  destruct (key y - key x <=? 0) eqn:C; [reflexivity|].
  apply Z.leb_gt in C.
  change (filter (fun a => key a =? v) (y :: sort_insert cmp x l))
    with (if key y =? v
          then y :: filter (fun a => key a =? v) (sort_insert cmp x l)
          else filter (fun a => key a =? v) (sort_insert cmp x l)).
  rewrite IH. simpl.
  destruct (key y =? v) eqn:Ey, (key x =? v) eqn:Ex; try reflexivity.
  apply Z.eqb_eq in Ey, Ex. lia.
Qed.

(** ... and elements with the same key keep their order. *)
Lemma js_sort_stable v l :
  filter (fun a => key a =? v) (js_sort cmp l) =
  filter (fun a => key a =? v) l.
Proof.
  induction l as [|x l IH]; [reflexivity|].
  simpl js_sort. rewrite sort_insert_stable. simpl. now rewrite IH.
Qed.
End SortFacts.

(** ** The read queries *)

Section QueryFacts.
Variable s : RoleCache.
Variable u : string.

Let holders : list RoleCacheEntry :=
  filter (fun entry => JsMap.has u (members entry)) (JsMap.values (cache s)).

Lemma getHighestStaffRole_Some e :
  getHighestStaffRole s u = Some e ->
  In e (JsMap.values (cache s)) /\
  JsMap.has u (members e) = true /\
  forall e', In e' (JsMap.values (cache s)) ->
             JsMap.has u (members e') = true -> rank e' <= rank e.
Proof.
  unfold getHighestStaffRole. fold holders.
  destruct (js_sort _ holders) as [|e0 rest] eqn:E; [discriminate|].
  intros [= ->].
  destruct (js_sort_head rank holders e rest E) as (l1 & l2 & Hl & H1 & H2).
  assert (Hin : In e holders) by (rewrite Hl; apply in_elt).
  apply filter_In in Hin. destruct Hin as [Hin Hhas].
  repeat split; auto.
  intros e' Hin' Hhas'.
  assert (Hh : In e' holders) by (apply filter_In; auto).
  rewrite Hl in Hh. apply in_app_or in Hh.
  destruct Hh as [Hh|[<-|Hh]]; [specialize (H1 _ Hh) | | specialize (H2 _ Hh)]; lia.
Qed.

Lemma getHighestStaffRole_None :
  getHighestStaffRole s u = None <->
  forall e, In e (JsMap.values (cache s)) -> JsMap.has u (members e) = false.
Proof.
  unfold getHighestStaffRole. fold holders.
  destruct (js_sort _ holders) as [|e0 rest] eqn:E.
  - apply (proj1 (js_sort_nil rank holders)) in E. split; [intros _|reflexivity].
    intros e Hin. destruct (JsMap.has u (members e)) eqn:Hh; [|reflexivity].
    assert (In e holders) by (apply filter_In; auto).
    rewrite E in H. destruct H.
  - split; [discriminate|]. intros Hnone. exfalso.
    assert (Hin : In e0 holders).
    { apply (Permutation_in _ (js_sort_perm rank holders)).
      rewrite E. now left. }
    apply filter_In in Hin. destruct Hin as [Hin Hhas].
    rewrite (Hnone e0 Hin) in Hhas. discriminate.
Qed.

Lemma isStaff_true :
  isStaff s u = true <->
  exists e, In e (JsMap.values (cache s)) /\ JsMap.has u (members e) = true.
Proof. unfold isStaff. apply existsb_exists. Qed.
End QueryFacts.

(** ** The union of the member sets *)

Section UnionFacts.
Implicit Types (acc ms : Collection) (entries : list RoleCacheEntry).

Lemma NoDup_app_iff {A} (l1 l2 : list A) :
  NoDup (l1 ++ l2) <->
  NoDup l1 /\ NoDup l2 /\ (forall a, In a l1 -> ~ In a l2).
Proof.
  split.
  - intros H. split; [now apply NoDup_app_remove_r in H|].
    split; [now apply NoDup_app_remove_l in H|].
    induction l1 as [|x l1 IH]; simpl in *; [tauto|].
    inversion H as [|? ? Hx Hnd]; subst.
    intros a [<-|Ha].
    + intros Hin. apply Hx. apply in_or_app. now right.
    + now apply IH.
  - intros (H1 & H2 & H3). now apply NoDup_app.
Qed.

Lemma set_fresh {V} k (v : V) (m : JsMap.t V) :
  JsMap.has k m = false -> JsMap.set k v m = m ++ [(k, v)].
Proof.
  unfold JsMap.has. induction m as [|[k' v'] m IH]; simpl; [reflexivity|].
  destruct (String.eqb k k'); [discriminate|].
  intros H. now rewrite IH.
Qed.

Lemma addMembers_get u ms : forall acc,
  JsMap.get u (addMembers acc ms) =
  match JsMap.get u acc with
  | Some x => Some x
  | None => JsMap.get u ms
  end.
Proof.
  induction ms as [|[k v] ms IH]; intros acc; simpl.
  - now destruct (JsMap.get u acc).
  - unfold addMembers in *. simpl.
    destruct (JsMap.has k acc) eqn:Hk; rewrite IH.
    + destruct (JsMap.get u acc) eqn:Hu; [reflexivity|].
      destruct (String.eqb u k) eqn:E; [|reflexivity].
      apply String.eqb_eq in E. subst k.
      unfold JsMap.has in Hk. rewrite Hu in Hk. discriminate.
    + destruct (String.eqb u k) eqn:E.
      * apply String.eqb_eq in E. subst k.
        rewrite JsMapFacts.get_set_same.
        unfold JsMap.has in Hk. now destruct (JsMap.get u acc).
      * apply String.eqb_neq in E.
        now rewrite JsMapFacts.get_set_other.
Qed.

Lemma addMembers_wf ms : forall acc,
  JsMap.wf acc -> JsMap.wf (addMembers acc ms).
Proof.
  induction ms as [|[k v] ms IH]; intros acc H; [exact H|].
  unfold addMembers in *. simpl. apply IH.
  destruct (JsMap.has k acc); [exact H | now apply JsMapFacts.wf_set].
Qed.

Lemma addMembers_size_le ms : forall acc,
  (JsMap.size (addMembers acc ms) <= JsMap.size acc + JsMap.size ms)%nat.
Proof.
  induction ms as [|[k v] ms IH]; intros acc; simpl.
  - unfold addMembers. simpl. lia.
  - unfold addMembers in *. simpl.
    destruct (JsMap.has k acc) eqn:Hk.
    + specialize (IH acc). unfold JsMap.size in *. simpl. lia.
    + specialize (IH (JsMap.set k v acc)). rewrite set_fresh in * by exact Hk.
      unfold JsMap.size in *. rewrite length_app in IH. simpl in *. lia.
Qed.

(** When no id of [ms] is in [acc] or twice in [ms], everything is
    appended. *)
Lemma addMembers_fresh ms : forall acc,
  NoDup (JsMap.keys acc ++ JsMap.keys ms) -> addMembers acc ms = acc ++ ms.
Proof.
  induction ms as [|[k v] ms IH]; intros acc H.
  - unfold addMembers. simpl. now rewrite app_nil_r.
  - unfold addMembers in *. simpl in *.
    assert (Hk : JsMap.has k acc = false).
    { apply JsMapFacts.has_false_keys. intros Hin.
      apply NoDup_app_iff in H. destruct H as (_ & _ & H).
      apply (H k Hin). now left. }
    rewrite Hk, set_fresh by exact Hk. rewrite IH.
    + now rewrite <- app_assoc.
    + unfold JsMap.keys in *. rewrite map_app. simpl.
      now rewrite <- app_assoc.
Qed.

Lemma addMembers_size_eq ms : forall acc,
  JsMap.wf acc ->
  (JsMap.size (addMembers acc ms) = (JsMap.size acc + JsMap.size ms)%nat <->
   NoDup (JsMap.keys acc ++ JsMap.keys ms)).
Proof.
  intros acc Hw. split.
  - revert acc Hw.
    induction ms as [|[k v] ms IH]; intros acc Hw H.
    + simpl. now rewrite app_nil_r.
    + unfold addMembers in *. simpl in *.
      destruct (JsMap.has k acc) eqn:Hk.
      * pose proof (addMembers_size_le ms acc) as Hle.
        unfold addMembers, JsMap.size in *. simpl in H. lia.
      * rewrite set_fresh in H by exact Hk.
        assert (Hw' : JsMap.wf (acc ++ [(k, v)])).
        { rewrite <- (set_fresh k v acc Hk). now apply JsMapFacts.wf_set. }
        specialize (IH (acc ++ [(k, v)]) Hw').
        unfold JsMap.size in *. rewrite length_app in IH. simpl in *.
        assert (Hnd := IH ltac:(lia)).
        unfold JsMap.keys in *. rewrite map_app in Hnd. simpl in Hnd.
        now rewrite <- app_assoc in Hnd.
  - intros H. rewrite addMembers_fresh by exact H.
    unfold JsMap.size. now rewrite length_app.
Qed.

Local Abbreviation all_from acc entries :=
  (fold_left (fun allStaff entry => addMembers allStaff (members entry))
     entries acc).
Local Abbreviation all_ids entries :=
  (flat_map (fun entry => JsMap.keys (members entry)) entries).

Lemma all_from_get u entries : forall acc,
  JsMap.get u (all_from acc entries) =
  match JsMap.get u acc with
  | Some x => Some x
  | None => first_holder u entries
  end.
Proof.
  induction entries as [|e es IH]; intros acc; simpl.
  - now destruct (JsMap.get u acc).
  - rewrite IH, addMembers_get. now destruct (JsMap.get u acc).
Qed.

Lemma first_holder_has u entries :
  match first_holder u entries with Some _ => true | None => false end = true <->
  exists e, In e entries /\ JsMap.has u (members e) = true.
Proof.
  induction entries as [|e es IH]; simpl.
  - split; [discriminate | intros (e & [] & _)].
  - destruct (JsMap.get u (members e)) as [mem|] eqn:E.
    + split; [|reflexivity]. intros _. exists e. split; [now left|].
      unfold JsMap.has. now rewrite E.
    + rewrite IH. split.
      * intros (e' & Hin & Hhas). exists e'. split; [now right | exact Hhas].
      * intros (e' & [<-|Hin] & Hhas).
        -- unfold JsMap.has in Hhas. rewrite E in Hhas. discriminate.
        -- now exists e'.
Qed.

Lemma all_from_wf entries : forall acc,
  JsMap.wf acc -> JsMap.wf (all_from acc entries).
Proof.
  induction entries as [|e es IH]; intros acc H; simpl; [exact H|].
  apply IH. now apply addMembers_wf.
Qed.

Lemma all_from_size_le entries : forall acc,
  (JsMap.size (all_from acc entries) <=
   JsMap.size acc + sum_member_sizes entries)%nat.
Proof.
  induction entries as [|e es IH]; intros acc; simpl; [lia|].
  specialize (IH (addMembers acc (members e))).
  pose proof (addMembers_size_le (members e) acc). lia.
Qed.

Lemma all_from_size_eq entries : forall acc,
  JsMap.wf acc ->
  (JsMap.size (all_from acc entries) =
     (JsMap.size acc + sum_member_sizes entries)%nat <->
   NoDup (JsMap.keys acc ++ all_ids entries)).
Proof.
  induction entries as [|e es IH]; intros acc Hw; simpl.
  - rewrite app_nil_r. split; [intros _; exact Hw | intros _; lia].
  - pose proof (addMembers_size_le (members e) acc) as Hle1.
    pose proof (all_from_size_le es (addMembers acc (members e))) as Hle2.
    pose proof (addMembers_wf (members e) acc Hw) as Hw1.
    split.
    + intros H.
      assert (H1 : JsMap.size (addMembers acc (members e)) =
                   (JsMap.size acc + JsMap.size (members e))%nat) by lia.
      assert (H2 : JsMap.size (all_from (addMembers acc (members e)) es) =
                   (JsMap.size (addMembers acc (members e)) +
                    sum_member_sizes es)%nat) by lia.
      apply (addMembers_size_eq _ _ Hw) in H1.
      apply (IH _ Hw1) in H2.
      rewrite addMembers_fresh in H2 by exact H1.
      unfold JsMap.keys in *. rewrite map_app, <- app_assoc in H2. exact H2.
    + intros H.
      assert (H1 : NoDup (JsMap.keys acc ++ JsMap.keys (members e))).
      { rewrite app_assoc in H. now apply NoDup_app_remove_r in H. }
      assert (H2 : NoDup (JsMap.keys (addMembers acc (members e)) ++ all_ids es)).
      { rewrite addMembers_fresh by exact H1.
        unfold JsMap.keys in *. now rewrite map_app, <- app_assoc. }
      apply (addMembers_size_eq _ _ Hw) in H1.
      apply (IH _ Hw1) in H2. lia.
Qed.

Lemma no_shared_user_cons e es :
  no_shared_user (e :: es) <->
  (forall u, JsMap.has u (members e) = true ->
     forall e', In e' es -> JsMap.has u (members e') = false) /\
  no_shared_user es.
Proof.
  unfold no_shared_user. split.
  - intros H. split.
    + intros u Hu e' Hin. apply In_nth_error in Hin. destruct Hin as [j Hj].
      now apply (H O (S j) e e' u).
    + intros i j ei ej u Hij Hi Hj. apply (H (S i) (S j)); auto.
  - intros [H1 H2] i j ei ej u Hij Hi Hj Hu.
    destruct i as [|i], j as [|j]; simpl in *.
    + congruence.
    + injection Hi as <-. apply (H1 u Hu). now apply nth_error_In in Hj.
    + injection Hj as <-.
      destruct (JsMap.has u (members e)) eqn:E; [|reflexivity].
      apply nth_error_In in Hi. rewrite (H1 u E ei Hi) in Hu. discriminate.
    + apply (H2 i j ei ej u); auto.
Qed.

(** The ids of all member sets, one after the other, are without
    repetition exactly when each set is and no two share a user. *)
Lemma all_ids_NoDup entries :
  (forall e, In e entries -> JsMap.wf (members e)) ->
  (NoDup (all_ids entries) <-> no_shared_user entries).
Proof.
  induction entries as [|e es IH]; intros Hwf; simpl.
  - split; [|constructor]. intros _ i j ei ej u _ Hi.
    destruct i; discriminate.
  - rewrite no_shared_user_cons, NoDup_app_iff, IH
      by (intros; apply Hwf; now right).
    split.
    + intros (_ & Hes & Hd). split; [|exact Hes].
      intros u Hu e' Hin. apply JsMapFacts.has_false_keys. intros Hu'.
      apply JsMapFacts.has_In_keys in Hu.
      apply (Hd u Hu). apply in_flat_map. now exists e'.
    + intros [Hd Hes]. split; [apply Hwf; now left|]. split; [exact Hes|].
      intros u Hu Hin. apply in_flat_map in Hin. destruct Hin as (e' & Hin & Hu').
      apply JsMapFacts.has_In_keys in Hu, Hu'.
      rewrite (Hd u Hu e' Hin) in Hu'. discriminate.
Qed.
End UnionFacts.

(** ** Roles that resolve during a pass *)

Section ResolvedFacts.
Variable env : Env.
Variable g : Guild.

(** A role that resolves at least once during the loop ends up with the
    entry written for it, stamped with a clock reading of the loop. *)
Lemma loop_written cfg id : forall m,
  In id (map cfg_id (resolving env g (roles_calls m) cfg)) ->
  exists rc r k,
    In rc cfg /\ cfg_id rc = id /\
    (clock_reads m <= k < clock_reads (pass_loop env g cfg m))%nat /\
    JsMap.get id (cache (this (pass_loop env g cfg m))) =
    Some (entry_of rc r (clock env k)).
Proof.
  induction cfg as [|rc rest IH]; intros m Hin; [destruct Hin|].
  unfold pass_loop. simpl.
  fold (pass_loop env g rest (cacheRole_step env g m rc)).
  set (m1 := cacheRole_step env g m rc).
  destruct (step_frame env g rc m) as (_ & _ & _ & _ & _ & _ & Hr & Hc).
  fold m1 in Hr, Hc.
  destruct (loop_frame env g rest m1) as (_ & _ & _ & _ & _ & _ & _ & Hc').
  destruct (in_dec string_dec id
              (map cfg_id (resolving env g (roles_calls m1) rest)))
    as [Hlater|Hnot].
  - destruct (IH m1 Hlater) as (rc' & r & k & H1 & H2 & H3 & H4).
    exists rc', r, k. repeat split; auto; try lia; try (now right).
  - simpl in Hin. rewrite Hr in Hnot.
    destruct (roles_fetch env (roles_calls m) g (cfg_id rc)) as [[r|]|e] eqn:E;
      simpl in Hin; try contradiction.
    destruct Hin as [Heq|Hin]; [|contradiction].
    exists rc, r, (clock_reads m).
    pose proof (step_clock env g rc m) as Hk. fold m1 in Hk.
    rewrite E in Hk. simpl in Hk.
    repeat split; auto; try lia; try (now left).
    rewrite loop_retains.
    + unfold m1. rewrite step_cache, E, <- Heq.
      apply JsMapFacts.get_set_same.
    + intros n rc' Hn Hid.
      destruct (resolves (roles_fetch env (roles_calls m1 + n) g id)) eqn:R;
        [|reflexivity].
      exfalso. apply Hnot. rewrite <- Hid. apply in_map.
      apply resolving_In. exists n. split; [exact Hn|].
      rewrite Hid, <- Hr. exact R.
Qed.

Lemma not_resolving cfg id base :
  ~ In id (map cfg_id (resolving env g base cfg)) ->
  forall n rc, nth_error cfg n = Some rc -> cfg_id rc = id ->
    resolves (roles_fetch env (base + n) g id) = false.
Proof.
  intros Hnot n rc Hn Hid.
  destruct (resolves (roles_fetch env (base + n) g id)) eqn:R; [|reflexivity].
  exfalso. apply Hnot. rewrite <- Hid. apply in_map.
  apply resolving_In. exists n. split; [exact Hn|]. now rewrite Hid.
Qed.
End ResolvedFacts.

(** ** The methods as a whole *)

Section MethodFacts.
Variable env : Env.
Variable cfg : list RoleConfig.

Lemma run_await_own {A} (p : Prog A) m :
  run env (await_own p) m = run env p m.
Proof.
  unfold await_own. rewrite run_bind.
  now destruct (run env p m) as [[a|e] m'].
Qed.

Lemma run_refresh m : run env (refresh cfg) m = run env (updateAllRoles cfg) m.
Proof. apply run_await_own. Qed.

(** The machine the loop of a pass starts from. *)
Lemma pass_result_cache g m :
  cache (this (pass_result env g cfg m)) =
  cache (this (pass_loop env g cfg
                 (count_members_call (with_this (with_isUpdating true (this m)) m)))).
Proof. reflexivity. Qed.

Lemma pass_result_frame g m :
  let m' := pass_result env g cfg m in
  guild (this m') = guild (this m) /\
  updateInterval (this m') = updateInterval (this m) /\
  isUpdating (this m') = false /\
  timers m' = timers m /\
  next_timer m' = next_timer m /\
  members_calls m' = S (members_calls m) /\
  roles_calls m' = (roles_calls m + List.length cfg)%nat /\
  (clock_reads m <= clock_reads m')%nat.
Proof.
  unfold pass_result. simpl.
  destruct (loop_frame env g cfg
              (count_members_call (with_this (with_isUpdating true (this m)) m)))
    as (I1 & I2 & I3 & I4 & I5 & I6 & I7 & I8).
  simpl in *. repeat split; auto.
Qed.

(** [updateAllRoles] always returns, and in one of three ways: at once
    (no guild bound, or a pass in flight), after a rejected member fetch,
    or after a completed pass. *)
Lemma updateAllRoles_cases m :
  run env (updateAllRoles cfg) m = (Normal tt, m) \/
  exists g,
    guild (this m) = Some g /\ isUpdating (this m) = false /\
    ((exists e, members_fetch env (members_calls m) g = Rejected e /\
        run env (updateAllRoles cfg) m =
        (Normal tt,
         count_members_call (with_this (with_isUpdating false (this m)) m))) \/
     (members_fetch env (members_calls m) g = Fulfilled tt /\
        run env (updateAllRoles cfg) m = (Normal tt, pass_result env g cfg m))).
Proof.
  destruct (guild (this m)) as [g|] eqn:Hg;
    [|left; now apply run_updateAllRoles_unbound].
  destruct (isUpdating (this m)) eqn:Hu;
    [left; now apply run_updateAllRoles_busy|].
  right. exists g. repeat split; auto.
  destruct (members_fetch env (members_calls m) g) as [[]|e] eqn:Hf.
  - right. split; [reflexivity|]. now apply run_updateAllRoles_completed.
  - left. exists e. split; [reflexivity|].
    now apply (run_updateAllRoles_aborted env g cfg m e).
Qed.

(** What [updateAllRoles] never touches, and that it never drops a
    key. *)
Lemma updateAllRoles_frame m :
  exists m',
    run env (updateAllRoles cfg) m = (Normal tt, m') /\
    guild (this m') = guild (this m) /\
    updateInterval (this m') = updateInterval (this m) /\
    timers m' = timers m /\
    next_timer m' = next_timer m /\
    (forall id, JsMap.has id (cache (this m)) = true ->
                JsMap.has id (cache (this m')) = true) /\
    (JsMap.wf (cache (this m)) -> JsMap.wf (cache (this m'))) /\
    (isUpdating (this m) = false -> isUpdating (this m') = false).
Proof.
  destruct (updateAllRoles_cases m)
    as [H|(g & Hg & Hu & [(e & Hf & H)|(Hf & H)])]; rewrite H;
    eexists; (split; [reflexivity|]).
  - repeat split; auto.
  - simpl. repeat split; auto.
  - destruct (pass_result_frame g m) as (I1 & I2 & I3 & I4 & I5 & _).
    repeat split; auto.
    + intros id Hid. rewrite pass_result_cache.
      now apply loop_keeps_keys.
    + intros Hwf. rewrite pass_result_cache. now apply loop_wf.
Qed.

(** An entry is either left as it was by [updateAllRoles] or replaced by one
    written for a role of the hierarchy. *)
Lemma updateAllRoles_entry m id e0 :
  JsMap.get id (cache (this m)) = Some e0 ->
  kept_or_rewritten cfg id e0
    (cache (this (snd (run env (updateAllRoles cfg) m)))).
Proof.
  intros Hget.
  destruct (updateAllRoles_cases m)
    as [H|(g & Hg & Hu & [(e & Hf & H)|(Hf & H)])]; rewrite H; simpl;
    try (now left).
  set (m0 := count_members_call (with_this (with_isUpdating true (this m)) m)).
  destruct (in_dec string_dec id
              (map cfg_id (resolving env g (roles_calls m0) cfg))) as [Hin|Hnot].
  - right. destruct (loop_written env g cfg id m0 Hin)
      as (rc & r & k & H1 & H2 & _ & H4).
    exists rc, r, (clock env k). repeat split; assumption.
  - left. rewrite <- Hget.
    exact (loop_retains env g cfg id m0
             (not_resolving env g cfg id (roles_calls m0) Hnot)).
Qed.

Lemma run_initialize g autoUpdate m :
  run env (initialize cfg g autoUpdate) m =
  let (c, m1) :=
    run env (updateAllRoles cfg) (with_this (with_guild (Some g) (this m)) m) in
  match c with
  | Normal _ =>
      match autoUpdate, updateInterval (this m1) with
      | true, None => run env startAutoUpdate m1
      | _, _ => (Normal tt, m1)
      end
  | Abrupt e => (Abrupt e, m1)
  end.
Proof.
  unfold initialize. rewrite run_bind, run_modify_this.
  rewrite run_bind, run_await_own.
  destruct (run env (updateAllRoles cfg) _) as [[[]|e] m1]; [|reflexivity].
  rewrite run_bind. cbn [run read_this perform].
  now destruct autoUpdate, (updateInterval (this m1)).
Qed.
End MethodFacts.

(** ** Statistics *)

Section StatsFacts.
Variable env : Env.

Lemma Math_min_spec xs : forall x,
  In (Math_min x xs) (x :: xs) /\
  forall y, In y (x :: xs) -> Math_min x xs <= y.
Proof.
  unfold Math_min.
  induction xs as [|z xs IH]; intros x; simpl.
  - split; [now left|]. intros y [<-|[]]. lia.
  - destruct (IH (Z.min x z)) as [Hin Hle]. split.
    + destruct Hin as [Hin|Hin]; [|now right; right].
      rewrite <- Hin. destruct (Z.min_spec x z) as [[_ ->]|[_ ->]]; auto.
    + intros y Hy.
      assert (Hm : fold_left Z.min xs (Z.min x z) <= Z.min x z)
        by (apply Hle; now left).
      destruct Hy as [<-|[<-|Hy]]; [lia | lia |].
      apply Hle. now right.
Qed.

(** [getStats] returns; it reads the clock and changes nothing else. *)
Lemma run_getStats m :
  exists stats m',
    run env getStats m = (Normal stats, m') /\
    this m' = this m /\ timers m' = timers m /\
    totalRoles stats = JsMap.size (cache (this m)) /\
    totalStaffMembers stats = JsMap.size (getAllStaffMembers (this m)) /\
    (cache (this m) <> [] ->
     exists e,
       In e (JsMap.values (cache (this m))) /\
       (forall e', In e' (JsMap.values (cache (this m))) ->
                   lastUpdated e <= lastUpdated e') /\
       oldestCacheAge stats = clock env (clock_reads m) - lastUpdated e).
Proof.
  unfold getStats. cbn [bind read_this run perform].
  destruct (cache (this m)) as [|[k0 e0] c] eqn:Hc.
  - simpl. do 2 eexists. repeat split. intros H. now elim H.
  - cbn [JsMap.values map]. cbn [bind run Date_now perform].
    fold (@JsMap.values RoleCacheEntry c).
    do 2 eexists. split; [reflexivity|]. repeat split.
    intros _. cbn [oldestCacheAge].
    destruct (Math_min_spec (map lastUpdated (map snd c)) (lastUpdated e0))
      as [Hin Hle].
    change (lastUpdated e0 :: map lastUpdated (map snd c))
      with (map lastUpdated (e0 :: map snd c)) in Hin, Hle.
    apply in_map_iff in Hin. destruct Hin as (e & He & Hin).
    exists e. repeat split; auto.
    + intros e' He'. rewrite He. apply Hle. now apply in_map.
    + now rewrite He.
Qed.
End StatsFacts.

(** ** Where a pass can be interrupted *)

Section SuspensionFacts.
Variable env : Env.

Lemma suspensions_bind {A B} (p : Prog A) (f : A -> Prog B) m :
  suspensions env (bind p f) m =
  suspensions env p m ++
  match run env p m with
  | (Normal a, m') => suspensions env (f a) m'
  | (Abrupt _, _) => []
  end.
Proof.
  revert m. induction p as [a|e|a k IH]; intros m; simpl; try reflexivity.
  destruct (perform env a m) as [r m'].
  destruct (is_await a); simpl; now rewrite IH.
Qed.

Lemma suspensions_try_catch {A} (p : Prog A) (h : Error -> Prog A) m :
  suspensions env (try_catch p h) m =
  suspensions env p m ++
  match run env p m with
  | (Normal _, _) => []
  | (Abrupt e, m') => suspensions env (h e) m'
  end.
Proof.
  revert m. induction p as [a|e|a k IH]; intros m; simpl; try reflexivity.
  destruct (perform env a m) as [r m'].
  destruct (is_await a); simpl; now rewrite IH.
Qed.

Lemma suspensions_try_finally {A} (p : Prog A) (f : Prog unit) m :
  suspensions env (try_finally p f) m =
  suspensions env p m ++ suspensions env f (snd (run env p m)).
Proof.
  revert m. induction p as [a|e|a k IH]; intros m; simpl.
  - rewrite suspensions_bind. destruct (run env f m) as [[u|e] m']; simpl;
      now rewrite app_nil_r.
  - rewrite suspensions_bind. destruct (run env f m) as [[u|e'] m']; simpl;
      now rewrite app_nil_r.
  - destruct (perform env a m) as [r m'].
    destruct (is_await a); simpl; now rewrite IH.
Qed.

(** An iteration of the loop is suspended once, at its role fetch. *)
Lemma suspensions_cacheRole g rc m :
  guild (this m) = Some g -> suspensions env (cacheRole rc) m = [m].
Proof.
  intros Hg. unfold cacheRole. rewrite suspensions_try_catch.
  simpl. unfold deref_guild. rewrite Hg. simpl.
  destruct (roles_fetch env (roles_calls m) g (cfg_id rc)) as [[r|]|e];
    reflexivity.
Qed.

Lemma suspensions_loop g cfg : forall m,
  guild (this m) = Some g ->
  Forall (fun m0 => isUpdating (this m0) = isUpdating (this m))
    (suspensions env (for_of cfg cacheRole) m).
Proof.
  induction cfg as [|rc rest IH]; intros m Hg; cbn [for_of]; [constructor|].
  rewrite suspensions_bind, (suspensions_cacheRole g rc m Hg),
    (run_cacheRole env g rc m Hg).
  constructor; [reflexivity|].
  destruct (step_frame env g rc m) as (Hg' & _ & Hu' & _).
  rewrite <- Hu'. apply IH. now rewrite Hg'.
Qed.

Lemma suspensions_read_bind {A} (k : RoleCache -> Prog A) m :
  suspensions env (s <- read_this ;; k s) m = suspensions env (k (this m)) m.
Proof. reflexivity. Qed.

Lemma suspensions_modify_bind {A} (f : RoleCache -> RoleCache) (p : Prog A) m :
  suspensions env (modify_this f ;; p) m =
  suspensions env p (with_this (f (this m)) m).
Proof. reflexivity. Qed.

Lemma suspensions_modify (f : RoleCache -> RoleCache) m :
  suspensions env (modify_this f) m = [].
Proof. reflexivity. Qed.

(** Wherever a pass is suspended, the in-flight flag is set. *)
Lemma suspensions_updateAllRoles cfg m :
  Forall (fun m0 => isUpdating (this m0) = true)
    (suspensions env (updateAllRoles cfg) m).
Proof.
  unfold updateAllRoles. rewrite suspensions_read_bind.
  destruct (guild (this m)) as [g|] eqn:Hg; [|constructor].
  destruct (isUpdating (this m)) eqn:Hu; [constructor|].
  rewrite suspensions_modify_bind.
  set (m1 := with_this (with_isUpdating true (this m)) m).
  assert (Hg1 : guild (this m1) = Some g) by exact Hg.
  rewrite suspensions_try_finally, suspensions_try_catch, suspensions_modify,
    app_nil_r.
  rewrite (run_pass_body env g cfg m1 Hg1).
  apply Forall_app. split.
  - rewrite suspensions_read_bind. unfold deref_guild. rewrite Hg1. cbn [bind].
    rewrite suspensions_bind.
    cbn [await_members_fetch suspensions run perform is_await].
    destruct (members_fetch env (members_calls m1) g) as [u|e];
      cbn [settle suspensions run app].
    + constructor; [reflexivity|].
      apply (suspensions_loop g cfg (count_members_call m1)). exact Hg.
    + repeat constructor.
  - destruct (members_fetch env (members_calls m1) g); constructor.
Qed.

(** So a [refresh()] that arrives while a pass is suspended, at whichever of
    its [await]s, finds the flag set and is dropped. *)
Lemma refresh_dropped_during_pass cfg m m0 :
  In m0 (suspensions env (updateAllRoles cfg) m) ->
  forall env', run env' (refresh cfg) m0 = (Normal tt, m0).
Proof.
  intros Hin env'.
  pose proof (suspensions_updateAllRoles cfg m) as Hall.
  rewrite Forall_forall in Hall.
  unfold refresh, await_own. rewrite run_bind.
  now rewrite (run_updateAllRoles_busy env' cfg m0 (Hall m0 Hin)).
Qed.
End SuspensionFacts.

(** ** What holds between calls *)

Section Invariant.
Variable cfg : list RoleConfig.

Lemma at_rest_updateAllRoles env m :
  at_rest m -> at_rest (snd (run env (updateAllRoles cfg) m)).
Proof.
  intros (Hu & Hwf & Ht).
  destruct (updateAllRoles_frame env cfg m)
    as (m' & Hrun & _ & Hi & Htm & _ & _ & Hwf' & Hu').
  rewrite Hrun. simpl. repeat split; auto. now rewrite Htm, Hi.
Qed.

Lemma reachable_at_rest m : reachable cfg m -> at_rest m.
Proof.
  induction 1 as [|m env c Hreach IH].
  - repeat split. constructor.
  - destruct c as [g autoUpdate| | | | |]; cbn [method].
    + rewrite run_initialize.
      assert (H0 : at_rest (with_this (with_guild (Some g) (this m)) m))
        by exact IH.
      apply (at_rest_updateAllRoles env) in H0.
      destruct (updateAllRoles_frame env cfg
                  (with_this (with_guild (Some g) (this m)) m))
        as (m1 & Hrun & _).
      rewrite Hrun in H0 |- *. simpl in H0. destruct H0 as (Hu & Hwf & Ht).
      destruct autoUpdate; [|unfold at_rest; simpl; auto].
      destruct (updateInterval (this m1)) eqn:Hi.
      * unfold at_rest. simpl. rewrite Hi. auto.
      * unfold at_rest. simpl. rewrite Ht. auto.
    + rewrite run_refresh. now apply at_rest_updateAllRoles.
    + destruct IH as (Hu & Hwf & Ht). unfold stopAutoUpdate. simpl.
      destruct (updateInterval (this m)) as [t|] eqn:Hi; simpl.
      * unfold at_rest. simpl. rewrite Ht. simpl. rewrite Nat.eqb_refl. auto.
      * unfold at_rest. rewrite Hi. auto.
    + destruct IH as (Hu & Hwf & Ht). repeat split; auto. constructor.
    + rewrite run_bind.
      destruct (run_getStats env m) as (stats & m' & Hrun & Hthis & Htm & _).
      rewrite Hrun. simpl. destruct IH as (Hu & Hwf & Ht).
      unfold at_rest. now rewrite Hthis, Htm.
    + unfold autoUpdateTick. rewrite run_await_own.
      now apply at_rest_updateAllRoles.
Qed.

(** At most one auto-update timer is ever active. *)
Lemma reachable_one_timer m :
  reachable cfg m -> (List.length (timers m) <= 1)%nat.
Proof.
  intros H. destruct (reachable_at_rest m H) as (_ & _ & ->).
  destruct (updateInterval (this m)); simpl; lia.
Qed.
End Invariant.

(** * The properties *)

(** ** Refresh while a refresh is in flight *)

(** C2.  In every state in which the in-flight flag is set, [refresh()]
    is a no-op: it returns normally and leaves the whole machine as it was,
    so no cache entry changes (no [lastUpdated] advances), and the guild is
    not asked anything; the refresh routine ends before its first [await],
    so no second pass is started. *)
Theorem refresh_in_flight_noop (env : Env) (cfg : list RoleConfig) (m : Machine) :
  isUpdating (this m) = true ->
  run env (refresh cfg) m = (Normal tt, m) /\
  advance env (updateAllRoles cfg) m = (Finished (Normal tt), m).
Proof.
  intros Hu. split.
  - rewrite run_refresh. now apply run_updateAllRoles_busy.
  - unfold updateAllRoles. simpl. rewrite Hu. now destruct (guild (this m)).
Qed.

Lemma refresh_in_flight_noop_witness :
  isUpdating (this Scenario.in_flight) = true /\
  run Scenario.guildA (refresh Scenario.hierarchy) Scenario.in_flight =
  (Normal tt, Scenario.in_flight).
Proof.
  split; [reflexivity|].
  apply (refresh_in_flight_noop Scenario.guildA Scenario.hierarchy
           Scenario.in_flight).
  reflexivity.
Defined.

(** ** A failing bulk member fetch *)

(** C3.  When the bulk member fetch at the start of a pass is rejected,
    [refresh()] still returns normally (no exception reaches the caller),
    the cache is the one from before the pass, and the in-flight flag is
    cleared: the next call of the refresh routine starts a pass and gets as
    far as the member fetch. *)
Theorem refresh_fetch_failure (env : Env) (cfg : list RoleConfig) (m : Machine)
    (g : Guild) (e : Error) :
  guild (this m) = Some g ->
  isUpdating (this m) = false ->
  members_fetch env (members_calls m) g = Rejected e ->
  exists m',
    run env (refresh cfg) m = (Normal tt, m') /\
    cache (this m') = cache (this m) /\
    isUpdating (this m') = false /\
    forall env', exists k,
      advance env' (updateAllRoles cfg) m' =
      (Awaiting (MembersFetch g) k, with_this (with_isUpdating true (this m')) m').
Proof.
  intros Hg Hu Hf.
  exists (count_members_call (with_this (with_isUpdating false (this m)) m)).
  split; [|split; [reflexivity | split; [reflexivity|]]].
  - rewrite run_refresh. now apply (run_updateAllRoles_aborted env g cfg m e).
  - intros env'. unfold updateAllRoles, deref_guild. simpl.
    rewrite Hg. simpl. rewrite Hg. simpl.
    eexists. reflexivity.
Qed.

Lemma refresh_fetch_failure_witness :
  exists m',
    run Scenario.outage (refresh Scenario.hierarchy) Scenario.initialized =
    (Normal tt, m') /\
    cache (this m') = cache (this Scenario.initialized) /\
    isUpdating (this m') = false.
Proof.
  destruct (refresh_fetch_failure Scenario.outage Scenario.hierarchy
              Scenario.initialized Scenario.theGuild "DiscordAPIError"
              eq_refl eq_refl eq_refl) as (m' & H1 & H2 & H3 & _).
  exists m'. repeat split; assumption.
Defined.

(** ** The auto-update timer *)

(** C4, as the code has it.  Calling [initialize] again while the
    auto-update timer is active ([updateInterval] holds its handle) starts
    no timer, whatever [autoUpdate] is: the call returns normally, the set
    of active timers and the handle are the ones from before.  Timer
    creation is guarded by the test of [updateInterval]. *)
Theorem initialize_again_keeps_timer (env : Env) (cfg : list RoleConfig)
    (g : Guild) (autoUpdate : bool) (m : Machine) (t : Timeout) :
  updateInterval (this m) = Some t ->
  exists m',
    run env (initialize cfg g autoUpdate) m = (Normal tt, m') /\
    timers m' = timers m /\
    next_timer m' = next_timer m /\
    updateInterval (this m') = Some t /\
    ~ starts_timer m m'.
Proof.
  intros Ht. rewrite run_initialize.
  destruct (updateAllRoles_frame env cfg
              (with_this (with_guild (Some g) (this m)) m))
    as (m1 & Hrun & _ & Hi & Htm & Hn & _).
  rewrite Hrun. simpl in Hi, Htm, Hn. rewrite Hi, Ht.
  exists m1. repeat split; auto.
  - now destruct autoUpdate.
  - congruence.
  - intros (t' & Hout & Hin). rewrite Htm in Hin. contradiction.
Qed.

Lemma initialize_again_keeps_timer_witness :
  updateInterval (this Scenario.initialized) = Some O /\
  exists m',
    run Scenario.guildA (initialize Scenario.hierarchy Scenario.theGuild true)
      Scenario.initialized = (Normal tt, m') /\
    timers m' = timers Scenario.initialized.
Proof.
  split; [reflexivity|].
  destruct (initialize_again_keeps_timer Scenario.guildA Scenario.hierarchy
              Scenario.theGuild true Scenario.initialized O eq_refl)
    as (m' & H1 & H2 & _).
  exists m'. split; assumption.
Defined.

(** C4, as the specification has it, fails: after [initialize(guild, true)]
    timer 0 is active and [updateInterval] holds it; a second
    [initialize(guild, true)] starts no further timer. *)
Lemma initialize_twice_one_timer :
  timers Scenario.initialized = [O] /\
  updateInterval (this Scenario.initialized) = Some O /\
  timers (snd (run Scenario.guildA
                 (initialize Scenario.hierarchy Scenario.theGuild true)
                 Scenario.initialized)) = [O] /\
  ~ starts_timer Scenario.initialized
      (snd (run Scenario.guildA
              (initialize Scenario.hierarchy Scenario.theGuild true)
              Scenario.initialized)).
Proof.
  repeat split; try reflexivity.
  intros (t & Hout & Hin). apply Hout.
  vm_compute in Hin. vm_compute. exact Hin.
Qed.

(** ** Roles that do not resolve *)

(** C9.  In a pass, a role whose fetch does not produce a role (it yields
    [null] or is rejected, each time the pass asks for that id) keeps the
    cache entry it had, unchanged, old [lastUpdated] included, or keeps
    having none; and the pass goes on: every role of the hierarchy is asked
    for, and every role that resolves has an entry afterwards. *)
Theorem unresolved_role_retained (env : Env) (cfg : list RoleConfig)
    (m : Machine) (g : Guild) (id : string) :
  guild (this m) = Some g ->
  isUpdating (this m) = false ->
  members_fetch env (members_calls m) g = Fulfilled tt ->
  (forall n rc, nth_error cfg n = Some rc -> cfg_id rc = id ->
     resolves (roles_fetch env (roles_calls m + n) g id) = false) ->
  exists m',
    run env (refresh cfg) m = (Normal tt, m') /\
    JsMap.get id (cache (this m')) = JsMap.get id (cache (this m)) /\
    roles_calls m' = (roles_calls m + List.length cfg)%nat /\
    forall rc, In rc (resolving env g (roles_calls m) cfg) ->
               JsMap.has (cfg_id rc) (cache (this m')) = true.
Proof.
  intros Hg Hu Hf Hun. exists (pass_result env g cfg m).
  split; [rewrite run_refresh; now apply run_updateAllRoles_completed|].
  split; [|split].
  - rewrite pass_result_cache.
    exact (loop_retains env g cfg id
             (count_members_call (with_this (with_isUpdating true (this m)) m))
             Hun).
  - now destruct (pass_result_frame env cfg g m) as (_ & _ & _ & _ & _ & _ & H & _).
  - intros rc Hrc. rewrite pass_result_cache. apply loop_keys. right.
    now apply in_map.
Qed.

Lemma unresolved_role_retained_witness :
  exists m',
    run Scenario.guildB (refresh Scenario.hierarchy) Scenario.initialized =
    (Normal tt, m') /\
    JsMap.get "300" (cache (this m')) =
    JsMap.get "300" (cache (this Scenario.initialized)).
Proof.
  destruct (unresolved_role_retained Scenario.guildB Scenario.hierarchy
              Scenario.initialized Scenario.theGuild "300"
              eq_refl eq_refl eq_refl (fun n rc _ _ => eq_refl))
    as (m' & H1 & H2 & _).
  exists m'. split; assumption.
Defined.

(** ** Nothing but [clear] removes an entry *)

(** C10.  Nothing but [clear] removes an entry.  A role id that has a
    cache entry still has one after [initialize], [refresh] or a timer
    tick, in every state and whatever the guild answers (failures
    included): the old entry, or one written for that role in its place.
    [stopAutoUpdate] and [getStats] leave the entry as it is.  After
    [clear] the id has no entry. *)
Theorem only_clear_removes (env : Env) (cfg : list RoleConfig) (m : Machine)
    (id : string) (e0 : RoleCacheEntry) :
  JsMap.get id (cache (this m)) = Some e0 ->
  (forall g autoUpdate,
     kept_or_rewritten cfg id e0
       (cache (this (snd (run env (initialize cfg g autoUpdate) m))))) /\
  kept_or_rewritten cfg id e0 (cache (this (snd (run env (refresh cfg) m)))) /\
  kept_or_rewritten cfg id e0
    (cache (this (snd (run env (autoUpdateTick cfg) m)))) /\
  JsMap.get id (cache (this (snd (run env stopAutoUpdate m)))) = Some e0 /\
  JsMap.get id (cache (this (snd (run env getStats m)))) = Some e0 /\
  JsMap.get id (cache (this (snd (run env clear m)))) = None.
Proof.
  intros Hid.
  split; [|split; [|split; [|split; [|split; [|reflexivity]]]]].
  - intros g autoUpdate. rewrite run_initialize.
    pose proof (updateAllRoles_entry env cfg
                  (with_this (with_guild (Some g) (this m)) m) id e0 Hid) as Hup.
    destruct (run env (updateAllRoles cfg) _) as [[[]|e] m1]; [|exact Hup].
    simpl in Hup.
    destruct autoUpdate, (updateInterval (this m1)); exact Hup.
  - rewrite run_refresh. now apply updateAllRoles_entry.
  - unfold autoUpdateTick. rewrite run_await_own. now apply updateAllRoles_entry.
  - unfold stopAutoUpdate. simpl.
    destruct (updateInterval (this m)); exact Hid.
  - destruct (run_getStats env m) as (stats & m' & Hrun & Hthis & _).
    rewrite Hrun. simpl. now rewrite Hthis.
Qed.

Lemma only_clear_removes_witness :
  kept_or_rewritten Scenario.hierarchy "300" (snd (Scenario.ranked "300" 3))
    (cache (this (snd (run Scenario.guildB (refresh Scenario.hierarchy)
                         (with_this Scenario.three_hundred Scenario.bound))))) /\
  JsMap.get "300"
    (cache (this (snd (run Scenario.guildB clear
                         (with_this Scenario.three_hundred Scenario.bound))))) = None.
Proof.
  destruct (only_clear_removes Scenario.guildB Scenario.hierarchy
              (with_this Scenario.three_hundred Scenario.bound) "300"
              (snd (Scenario.ranked "300" 3)) eq_refl)
    as (_ & H1 & _ & _ & _ & H2).
  split; assumption.
Defined.

(** ** The number of cached roles after [initialize] *)

(** C8.  After an [initialize] on an empty cache whose bulk member fetch
    succeeds, nothing is raised and [getStats().totalRoles] is the number
    of configured roles that resolve in the guild: the cache has an entry
    for exactly the role ids that resolve, so roles that do not resolve are
    skipped without an entry.  (Counted by role id; that is the number of
    hierarchy elements that resolve when their ids are distinct.) *)
Theorem initialize_totalRoles (env : Env) (cfg : list RoleConfig) (g : Guild)
    (autoUpdate : bool) (m : Machine) :
  cache (this m) = JsMap.empty ->
  isUpdating (this m) = false ->
  members_fetch env (members_calls m) g = Fulfilled tt ->
  exists m' stats m'',
    run env (initialize cfg g autoUpdate) m = (Normal tt, m') /\
    run env getStats m' = (Normal stats, m'') /\
    totalRoles stats =
      List.length (nodup string_dec
                     (map cfg_id (resolving env g (roles_calls m) cfg))) /\
    (NoDup (map cfg_id cfg) ->
     totalRoles stats = List.length (resolving env g (roles_calls m) cfg)) /\
    (forall id, JsMap.has id (cache (this m')) = true <->
                In id (map cfg_id (resolving env g (roles_calls m) cfg))).
Proof.
  intros Hempty Hu Hf.
  set (m0 := with_this (with_guild (Some g) (this m)) m).
  set (m1 := pass_result env g cfg m0).
  assert (Hrun1 : run env (updateAllRoles cfg) m0 = (Normal tt, m1))
    by (now apply run_updateAllRoles_completed).
  assert (Hkeys : forall id, JsMap.has id (cache (this m1)) = true <->
            In id (map cfg_id (resolving env g (roles_calls m) cfg))).
  { intros id. unfold m1. rewrite pass_result_cache, loop_keys. simpl.
    rewrite Hempty. simpl. split; [intros [H|H]; [discriminate|exact H] | now right]. }
  assert (Hwf : JsMap.wf (cache (this m1))).
  { unfold m1. rewrite pass_result_cache. apply loop_wf. simpl.
    rewrite Hempty. constructor. }
  assert (Hinit : exists m', run env (initialize cfg g autoUpdate) m = (Normal tt, m')
                             /\ cache (this m') = cache (this m1)).
  { rewrite run_initialize. fold m0. rewrite Hrun1.
    destruct autoUpdate, (updateInterval (this m1)); eexists; split; reflexivity. }
  destruct Hinit as (m' & Hrun & Hcache).
  destruct (run_getStats env m') as (stats & m'' & Hst & _ & _ & Htotal & _).
  exists m', stats, m''. split; [exact Hrun|]. split; [exact Hst|].
  rewrite Htotal, Hcache, JsMapFacts.size_keys.
  split; [|split].
  - apply Permutation_length. apply NoDup_Permutation.
    + exact Hwf.
    + apply NoDup_nodup.
    + intros id. rewrite nodup_In, <- Hkeys. symmetry. apply JsMapFacts.has_In_keys.
  - intros Hnd. unfold m1. rewrite pass_result_cache, loop_appends.
    + simpl. rewrite Hempty. simpl. now rewrite length_map.
    + exact Hnd.
    + intros rc _. simpl. now rewrite Hempty.
  - exact Hkeys.
Qed.

Lemma initialize_totalRoles_witness :
  exists m' stats m'',
    run Scenario.guildB (initialize Scenario.hierarchy Scenario.theGuild true) boot
      = (Normal tt, m') /\
    run Scenario.guildB getStats m' = (Normal stats, m'') /\
    totalRoles stats = 2%nat.
Proof.
  destruct (initialize_totalRoles Scenario.guildB Scenario.hierarchy
              Scenario.theGuild true boot eq_refl eq_refl eq_refl)
    as (m' & stats & m'' & H1 & H2 & H3 & _).
  exists m', stats, m''. repeat split; assumption.
Defined.

(** ** Timestamps after a pass *)

(** C1, as the specification has it, fails.  After [initialize] in guild A,
    where the clock advances between the writes, the three entries carry
    1000, 1001 and 1002.  And after a completed pass in guild B, where the
    clock stands still but the Admin role is gone, the Admin entry still
    carries its old 1002 next to two entries stamped 5000. *)
Lemma refresh_timestamps_differ :
  (guild (this Scenario.bound) = Some Scenario.theGuild /\
   isUpdating (this Scenario.bound) = false /\
   members_fetch Scenario.guildA (members_calls Scenario.bound) Scenario.theGuild
     = Fulfilled tt /\
   ~ uniform_lastUpdated
       (cache (this (snd (run Scenario.guildA (refresh Scenario.hierarchy)
                            Scenario.bound))))) /\
  (guild (this Scenario.initialized) = Some Scenario.theGuild /\
   isUpdating (this Scenario.initialized) = false /\
   members_fetch Scenario.guildB (members_calls Scenario.initialized)
     Scenario.theGuild = Fulfilled tt /\
   ~ uniform_lastUpdated
       (cache (this (snd (run Scenario.guildB (refresh Scenario.hierarchy)
                            Scenario.initialized))))).
Proof.
  split; (split; [reflexivity | split; [reflexivity | split; [reflexivity|]]]).
  - intros (t & Ht).
    assert (H1 : exists e,
               JsMap.get "100"
                 (cache (this (snd (run Scenario.guildA (refresh Scenario.hierarchy)
                                      Scenario.bound)))) = Some e /\
               lastUpdated e = 1000)
      by (vm_compute; eexists; split; reflexivity).
    assert (H2 : exists e,
               JsMap.get "200"
                 (cache (this (snd (run Scenario.guildA (refresh Scenario.hierarchy)
                                      Scenario.bound)))) = Some e /\
               lastUpdated e = 1001)
      by (vm_compute; eexists; split; reflexivity).
    destruct H1 as (e1 & G1 & L1), H2 as (e2 & G2 & L2).
    apply Ht in G1, G2. lia.
  - intros (t & Ht).
    assert (H1 : exists e,
               JsMap.get "100"
                 (cache (this (snd (run Scenario.guildB (refresh Scenario.hierarchy)
                                      Scenario.initialized)))) = Some e /\
               lastUpdated e = 5000)
      by (vm_compute; eexists; split; reflexivity).
    assert (H3 : exists e,
               JsMap.get "300"
                 (cache (this (snd (run Scenario.guildB (refresh Scenario.hierarchy)
                                      Scenario.initialized)))) = Some e /\
               lastUpdated e = 1002)
      by (vm_compute; eexists; split; reflexivity).
    destruct H1 as (e1 & G1 & L1), H3 as (e3 & G3 & L3).
    apply Ht in G1, G3. lia.
Qed.

(** C1, as the code has it.  After a completed pass, each entry present is
    of one of two kinds.  If its role did not resolve in the pass, it is
    the entry from before the pass, old [lastUpdated] included.  If its
    role resolved, its [lastUpdated] is a reading of the clock taken during
    the pass, one reading for each role written.  [getStats().oldestCacheAge]
    is the clock minus the smallest [lastUpdated] among the entries.  So
    when the clock reads the same value [t] throughout the pass and every
    role cached before resolves again, all entries carry [t] and
    [oldestCacheAge] is measured from [t]. *)
Theorem refresh_timestamps (env : Env) (cfg : list RoleConfig) (m : Machine)
    (g : Guild) :
  guild (this m) = Some g ->
  isUpdating (this m) = false ->
  members_fetch env (members_calls m) g = Fulfilled tt ->
  exists m' stats m'',
    run env (refresh cfg) m = (Normal tt, m') /\
    run env getStats m' = (Normal stats, m'') /\
    (forall id e, JsMap.get id (cache (this m')) = Some e ->
       (~ In id (map cfg_id (resolving env g (roles_calls m) cfg)) /\
        JsMap.get id (cache (this m)) = Some e) \/
       (In id (map cfg_id (resolving env g (roles_calls m) cfg)) /\
        exists k, (clock_reads m <= k < clock_reads m')%nat /\
                  lastUpdated e = clock env k)) /\
    (cache (this m') <> [] ->
     exists e,
       In e (JsMap.values (cache (this m'))) /\
       (forall e', In e' (JsMap.values (cache (this m'))) ->
                   lastUpdated e <= lastUpdated e') /\
       oldestCacheAge stats = clock env (clock_reads m') - lastUpdated e) /\
    (forall t,
       JsMap.wf (cache (this m)) ->
       (forall k, (clock_reads m <= k < clock_reads m')%nat -> clock env k = t) ->
       (forall id, JsMap.has id (cache (this m)) = true ->
                   In id (map cfg_id (resolving env g (roles_calls m) cfg))) ->
       (forall id e, JsMap.get id (cache (this m')) = Some e -> lastUpdated e = t) /\
       (cache (this m') <> [] ->
        oldestCacheAge stats = clock env (clock_reads m') - t)).
Proof.
  intros Hg Hu Hf.
  set (m0 := count_members_call (with_this (with_isUpdating true (this m)) m)).
  set (m' := pass_result env g cfg m).
  assert (Hcache : cache (this m') = cache (this (pass_loop env g cfg m0)))
    by reflexivity.
  assert (Hclock : clock_reads m' = clock_reads (pass_loop env g cfg m0))
    by reflexivity.
  assert (Hkinds : forall id e, JsMap.get id (cache (this m')) = Some e ->
     (~ In id (map cfg_id (resolving env g (roles_calls m) cfg)) /\
      JsMap.get id (cache (this m)) = Some e) \/
     (In id (map cfg_id (resolving env g (roles_calls m) cfg)) /\
      exists k, (clock_reads m <= k < clock_reads m')%nat /\
                lastUpdated e = clock env k)).
  { intros id e Hget. rewrite Hcache in Hget.
    destruct (in_dec string_dec id
                (map cfg_id (resolving env g (roles_calls m) cfg))) as [Hin|Hnot].
    - right. split; [exact Hin|].
      destruct (loop_written env g cfg id m0 Hin) as (rc & r & k & _ & _ & Hk & Hw).
      rewrite Hw in Hget. injection Hget as <-.
      exists k. split; [rewrite Hclock; exact Hk | reflexivity].
    - left. split; [exact Hnot|].
      rewrite <- Hget. symmetry.
      exact (loop_retains env g cfg id m0
               (not_resolving env g cfg id (roles_calls m0) Hnot)). }
  destruct (run_getStats env m') as (stats & m'' & Hst & _ & _ & _ & _ & Hage).
  exists m', stats, m''.
  split; [rewrite run_refresh; now apply run_updateAllRoles_completed|].
  split; [exact Hst|]. split; [exact Hkinds|]. split; [exact Hage|].
  intros t Hwf Hfrozen Hall.
  assert (Hsame : forall id e, JsMap.get id (cache (this m')) = Some e ->
                               lastUpdated e = t).
  { intros id e Hget.
    destruct (Hkinds id e Hget) as [[Hnot Hold]|[_ (k & Hk & Hl)]].
    - exfalso. apply Hnot, Hall. unfold JsMap.has. now rewrite Hold.
    - rewrite Hl. now apply Hfrozen. }
  split; [exact Hsame|].
  intros Hne. destruct (Hage Hne) as (e & Hin & _ & ->).
  f_equal.
  assert (Hwf' : JsMap.wf (cache (this m')))
    by (rewrite Hcache; now apply loop_wf).
  destruct (JsMapFacts.wf_values_get _ _ Hwf' Hin) as (id & Hid).
  now apply (Hsame id).
Qed.

Lemma refresh_timestamps_witness :
  exists m' stats m'',
    run Scenario.guildB (refresh Scenario.hierarchy) Scenario.bound =
    (Normal tt, m') /\
    run Scenario.guildB getStats m' = (Normal stats, m'') /\
    (forall id e, JsMap.get id (cache (this m')) = Some e ->
                  lastUpdated e = 5000) /\
    oldestCacheAge stats = 0.
Proof.
  destruct (refresh_timestamps Scenario.guildB Scenario.hierarchy Scenario.bound
              Scenario.theGuild eq_refl eq_refl eq_refl)
    as (m' & stats & m'' & Hrun & Hst & _ & _ & Hfrozen).
  exists m', stats, m''. split; [exact Hrun|]. split; [exact Hst|].
  destruct (Hfrozen 5000) as [Hsame Hage].
  - constructor.
  - reflexivity.
  - intros id H. discriminate H.
  - split; [exact Hsame|].
    rewrite Hage; [reflexivity|].
    injection Hrun as <-. discriminate.
Defined.

(** ** The highest staff role *)

(** C5.  For a user who is in the member set of at least one cached entry,
    [getHighestStaffRole] returns an entry of the cache that contains the
    user and whose rank is the largest among the entries containing the
    user; for a user in no entry it returns nothing. *)
Theorem getHighestStaffRole_max (s : RoleCache) (u : string) :
  ((exists e0, In e0 (JsMap.values (cache s)) /\
               JsMap.has u (members e0) = true) ->
   exists e,
     getHighestStaffRole s u = Some e /\
     In e (JsMap.values (cache s)) /\
     JsMap.has u (members e) = true /\
     forall e', In e' (JsMap.values (cache s)) ->
                JsMap.has u (members e') = true -> rank e' <= rank e) /\
  ((forall e0, In e0 (JsMap.values (cache s)) ->
               JsMap.has u (members e0) = false) ->
   getHighestStaffRole s u = None).
Proof.
  split.
  - intros (e0 & Hin0 & Hhas0).
    destruct (getHighestStaffRole s u) as [e|] eqn:E.
    + exists e. split; [reflexivity|]. now apply getHighestStaffRole_Some.
    + rewrite (proj1 (getHighestStaffRole_None s u) E e0 Hin0) in Hhas0.
      discriminate.
  - apply getHighestStaffRole_None.
Qed.

Lemma getHighestStaffRole_max_witness :
  exists e,
    getHighestStaffRole Scenario.three_ranks "u" = Some e /\ rank e = 5.
Proof.
  destruct (proj1 (getHighestStaffRole_max Scenario.three_ranks "u")) as
    (e & He & _).
  - exists (snd (Scenario.ranked "a" 1)). split; [now left | reflexivity].
  - exists e. split; [exact He|].
    vm_compute in He. injection He as <-. reflexivity.
Defined.

(** ** Staff membership *)

(** C6.  [isStaff(u)] is true exactly when [getHighestStaffRole(u)] returns
    an entry. *)
Theorem isStaff_iff_highest (s : RoleCache) (u : string) :
  isStaff s u = true <-> getHighestStaffRole s u <> None.
Proof.
  rewrite isStaff_true. split.
  - intros (e & Hin & Hhas) Hnone.
    rewrite (proj1 (getHighestStaffRole_None s u) Hnone e Hin) in Hhas.
    discriminate.
  - intros Hsome.
    destruct (getHighestStaffRole s u) as [e|] eqn:E; [|now elim Hsome].
    exists e. apply getHighestStaffRole_Some in E. tauto.
Qed.

(** ** All staff members *)

(** C7.  In a cache whose member sets hold each user id once,
    [getAllStaffMembers] holds each user id once; it has a user exactly
    when some entry's member set has, and records for the user the member
    object of the first entry, in iteration order, that has the user.  Its
    size is at most the sum of the sizes of the member sets, and equal to
    it exactly when no user is in the member sets of two entries. *)
Theorem getAllStaffMembers_union (s : RoleCache) :
  (forall e, In e (JsMap.values (cache s)) -> JsMap.wf (members e)) ->
  JsMap.wf (getAllStaffMembers s) /\
  (forall u, JsMap.has u (getAllStaffMembers s) = true <->
             exists e, In e (JsMap.values (cache s)) /\
                       JsMap.has u (members e) = true) /\
  (forall u, JsMap.get u (getAllStaffMembers s) =
             first_holder u (JsMap.values (cache s))) /\
  (JsMap.size (getAllStaffMembers s) <=
   sum_member_sizes (JsMap.values (cache s)))%nat /\
  (JsMap.size (getAllStaffMembers s) = sum_member_sizes (JsMap.values (cache s))
   <-> no_shared_user (JsMap.values (cache s))).
Proof.
  intros Hwf. unfold getAllStaffMembers.
  assert (Hget : forall u,
            JsMap.get u
              (fold_left (fun allStaff entry => addMembers allStaff (members entry))
                 (JsMap.values (cache s)) JsMap.empty) =
            first_holder u (JsMap.values (cache s)))
    by (intros u; apply all_from_get).
  split; [apply all_from_wf; constructor|].
  split; [|split; [exact Hget|split]].
  - intros u. unfold JsMap.has at 1. rewrite Hget. apply first_holder_has.
  - apply (all_from_size_le (JsMap.values (cache s)) JsMap.empty).
  - rewrite <- (all_ids_NoDup _ Hwf).
    apply (all_from_size_eq (JsMap.values (cache s)) JsMap.empty). constructor.
Qed.

Lemma getAllStaffMembers_union_witness :
  JsMap.get "u" (getAllStaffMembers Scenario.three_ranks) =
    Some (mkMember "u" "U") /\
  (JsMap.size (getAllStaffMembers Scenario.three_ranks) <=
   sum_member_sizes (JsMap.values (cache Scenario.three_ranks)))%nat.
Proof.
  assert (Hwf : forall e, In e (JsMap.values (cache Scenario.three_ranks)) ->
                          JsMap.wf (members e)).
  { intros e He. simpl in He.
    destruct He as [<-|[<-|[<-|[]]]]; repeat constructor; simpl; tauto. }
  destruct (getAllStaffMembers_union Scenario.three_ranks Hwf)
    as (_ & _ & Hfirst & Hle & _).
  split; [rewrite Hfirst; reflexivity | exact Hle].
Defined.

(** * Further properties *)

(** ** What a refresh leaves alone, and what it costs *)

Section PassAccounting.
Variable env : Env.
Variable g : Guild.

Lemma loop_clock cfg : forall m,
  clock_reads (pass_loop env g cfg m) =
  (clock_reads m + List.length (resolving env g (roles_calls m) cfg))%nat.
Proof.
  induction cfg as [|rc rest IH]; intros m; simpl; [lia|].
  unfold pass_loop. simpl. fold (pass_loop env g rest (cacheRole_step env g m rc)).
  rewrite IH, step_clock.
  destruct (step_frame env g rc m) as (_ & _ & _ & _ & _ & _ & -> & _).
  destruct (resolves (roles_fetch env (roles_calls m) g (cfg_id rc))); simpl; lia.
Qed.

End PassAccounting.

(** X1.  [refresh()], in whatever state and whatever the guild answers,
    returns normally and changes neither the guild binding nor the timer
    handle nor the set of active timers, and it leaves the in-flight flag
    as it found it. *)
Theorem refresh_frame (env : Env) (cfg : list RoleConfig) (m : Machine) :
  exists m',
    run env (refresh cfg) m = (Normal tt, m') /\
    guild (this m') = guild (this m) /\
    updateInterval (this m') = updateInterval (this m) /\
    timers m' = timers m /\
    next_timer m' = next_timer m /\
    isUpdating (this m') = isUpdating (this m).
Proof.
  rewrite run_refresh.
  destruct (updateAllRoles_cases env cfg m)
    as [H|(g & Hg & Hu & [(e & Hf & H)|(Hf & H)])]; rewrite H; eexists;
    (split; [reflexivity|]).
  - repeat split.
  - simpl. repeat split; auto.
  - destruct (pass_result_frame env cfg g m) as (I1 & I2 & I3 & I4 & I5 & _).
    repeat split; auto; congruence.
Qed.

(** X2.  What a pass costs.  Started on a bound, idle instance, a pass makes
    exactly one bulk member fetch.  If that is fulfilled, it makes one role
    fetch for each element of the hierarchy and reads the clock once for
    each role that resolves; if it is rejected, it makes no role fetch and
    reads no clock. *)
Theorem refresh_cost (env : Env) (cfg : list RoleConfig) (m : Machine)
    (g : Guild) :
  guild (this m) = Some g ->
  isUpdating (this m) = false ->
  let m' := snd (run env (refresh cfg) m) in
  members_calls m' = S (members_calls m) /\
  match members_fetch env (members_calls m) g with
  | Fulfilled _ =>
      roles_calls m' = (roles_calls m + List.length cfg)%nat /\
      clock_reads m' =
        (clock_reads m + List.length (resolving env g (roles_calls m) cfg))%nat
  | Rejected _ =>
      roles_calls m' = roles_calls m /\ clock_reads m' = clock_reads m
  end.
Proof.
  intros Hg Hu m'. subst m'. rewrite run_refresh.
  rewrite (run_updateAllRoles_started env g cfg m Hg Hu).
  destruct (members_fetch env (members_calls m) g) as [u|e]; simpl.
  - destruct (loop_frame env g cfg
                (count_members_call (with_this (with_isUpdating true (this m)) m)))
      as (_ & _ & _ & _ & _ & I6 & I7 & _).
    simpl in I6, I7. repeat split; auto.
    apply (loop_clock env g cfg
             (count_members_call (with_this (with_isUpdating true (this m)) m))).
  - repeat split.
Qed.

Lemma refresh_cost_witness :
  let m' := snd (run Scenario.guildB (refresh Scenario.hierarchy)
                   Scenario.initialized) in
  members_calls m' = 2%nat /\ roles_calls m' = 6%nat /\ clock_reads m' = 5%nat.
Proof.
  destruct (refresh_cost Scenario.guildB Scenario.hierarchy Scenario.initialized
              Scenario.theGuild eq_refl eq_refl) as (H1 & H2 & H3).
  repeat split; assumption.
Defined.

Lemma loop_keys_prefix env g cfg rest : forall m,
  incl rest cfg ->
  exists added,
    JsMap.keys (cache (this (pass_loop env g rest m))) =
    JsMap.keys (cache (this m)) ++ added /\
    incl added (map cfg_id cfg).
Proof.
  induction rest as [|rc rest IH]; intros m Hincl.
  - exists []. split; [now rewrite app_nil_r | intros x []].
  - unfold pass_loop. simpl.
    fold (pass_loop env g rest (cacheRole_step env g m rc)).
    destruct (IH (cacheRole_step env g m rc)) as (added & Hk & Hin);
      [intros x Hx; apply Hincl; now right|].
    rewrite Hk, step_cache.
    destruct (roles_fetch env (roles_calls m) g (cfg_id rc)) as [[r|]|e];
      try (exists added; split; [reflexivity | exact Hin]).
    rewrite JsMapFacts.keys_set.
    destruct (JsMap.has (cfg_id rc) (cache (this m)));
      [exists added; split; [reflexivity | exact Hin]|].
    exists (cfg_id rc :: added). split; [now rewrite <- app_assoc|].
    intros x [<-|Hx]; [|now apply Hin].
    apply in_map. apply Hincl. now left.
Qed.

(** X3.  The cache only grows at its end.  Across [initialize], [refresh]
    or a timer tick, whatever the guild answers, the role ids already
    cached stay cached and keep their place in the iteration order; what
    is added comes after them and is configured role ids.  So the number
    of cached roles never goes down. *)
Theorem cache_keys_append_only (env : Env) (cfg : list RoleConfig)
    (m : Machine) (c : call) :
  c <> CallClear ->
  let m' := snd (run env (method cfg c) m) in
  exists added,
    JsMap.keys (cache (this m')) = JsMap.keys (cache (this m)) ++ added /\
    incl added (map cfg_id cfg) /\
    (JsMap.size (cache (this m)) <= JsMap.size (cache (this m')))%nat.
Proof.
  intros Hc m'.
  assert (Hsize : forall added,
            JsMap.keys (cache (this m')) = JsMap.keys (cache (this m)) ++ added ->
            (JsMap.size (cache (this m)) <= JsMap.size (cache (this m')))%nat).
  { intros added H. rewrite !JsMapFacts.size_keys, H, length_app. lia. }
  assert (Hup : forall m0, exists added,
            JsMap.keys (cache (this (snd (run env (updateAllRoles cfg) m0)))) =
            JsMap.keys (cache (this m0)) ++ added /\
            incl added (map cfg_id cfg)).
  { intros m0.
    destruct (updateAllRoles_cases env cfg m0)
      as [H|(g & Hg & Hu & [(e & Hf & H)|(Hf & H)])]; rewrite H; simpl;
      try (exists []; split; [now rewrite app_nil_r | intros x []]).
    apply (loop_keys_prefix env g cfg cfg
             (count_members_call (with_this (with_isUpdating true (this m0)) m0))).
    apply incl_refl. }
  assert (Hsame : cache (this m') = cache (this m) ->
            exists added,
              JsMap.keys (cache (this m')) = JsMap.keys (cache (this m)) ++ added /\
              incl added (map cfg_id cfg)).
  { intros ->. exists []. split; [now rewrite app_nil_r | intros x []]. }
  assert (Hmain : exists added,
            JsMap.keys (cache (this m')) = JsMap.keys (cache (this m)) ++ added /\
            incl added (map cfg_id cfg)).
  { subst m'. destruct c as [g autoUpdate| | | | |]; cbn [method] in *.
    - rewrite run_initialize.
      specialize (Hup (with_this (with_guild (Some g) (this m)) m)).
      destruct (run env (updateAllRoles cfg) _) as [[[]|e] m1]; [|exact Hup].
      simpl in Hup.
      destruct autoUpdate, (updateInterval (this m1)); exact Hup.
    - rewrite run_refresh. apply Hup.
    - apply Hsame. unfold stopAutoUpdate. simpl.
      now destruct (updateInterval (this m)).
    - now elim Hc.
    - apply Hsame. rewrite run_bind.
      destruct (run_getStats env m) as (stats & m1 & Hrun & Hthis & _).
      rewrite Hrun. simpl. now rewrite Hthis.
    - unfold autoUpdateTick. rewrite run_await_own. apply Hup. }
  destruct Hmain as (added & Hk & Hin).
  exists added. split; [exact Hk|]. split; [exact Hin | now apply (Hsize added)].
Qed.

Lemma cache_keys_append_only_witness :
  exists added,
    JsMap.keys
      (cache (this (snd (run Scenario.guildA
                           (method Scenario.hierarchy CallRefresh)
                           (with_this Scenario.three_hundred Scenario.bound))))) =
    ["300"] ++ added.
Proof.
  destruct (cache_keys_append_only Scenario.guildA Scenario.hierarchy
              (with_this Scenario.three_hundred Scenario.bound) CallRefresh)
    as (added & Hk & _).
  - discriminate.
  - exists added. exact Hk.
Defined.

(** ** The timer *)

(** X4.  [initialize] always returns normally and always binds the guild
    it is given.  It starts a timer exactly when [autoUpdate] is set and
    the instance holds no timer handle: then the new timer is added to the
    active ones and its handle is kept; otherwise timers and handle stay as
    they were. *)
Theorem initialize_timer (env : Env) (cfg : list RoleConfig) (g : Guild)
    (autoUpdate : bool) (m : Machine) :
  exists m',
    run env (initialize cfg g autoUpdate) m = (Normal tt, m') /\
    guild (this m') = Some g /\
    match autoUpdate, updateInterval (this m) with
    | true, None =>
        timers m' = timers m ++ [next_timer m] /\
        updateInterval (this m') = Some (next_timer m)
    | _, _ =>
        timers m' = timers m /\
        updateInterval (this m') = updateInterval (this m)
    end.
Proof.
  rewrite run_initialize.
  destruct (updateAllRoles_frame env cfg
              (with_this (with_guild (Some g) (this m)) m))
    as (m1 & Hrun & Hg & Hi & Htm & Hn & _).
  rewrite Hrun. simpl in Hg, Hi, Htm, Hn. rewrite Hi.
  destruct autoUpdate, (updateInterval (this m)) as [t|]; simpl;
    eexists; (split; [reflexivity|]); simpl; repeat split; auto;
    congruence.
Qed.

Lemma getStats_frame env m :
  let m' := snd (run env getStats m) in
  this m' = this m /\ timers m' = timers m /\ next_timer m' = next_timer m /\
  members_calls m' = members_calls m /\ roles_calls m' = roles_calls m.
Proof.
  unfold getStats. cbn [bind read_this run perform].
  destruct (cache (this m)) as [|[k0 e0] c]; simpl; repeat split.
Qed.

Lemma refresh_frame_aux env cfg m :
  exists m',
    run env (refresh cfg) m = (Normal tt, m') /\
    updateInterval (this m') = updateInterval (this m) /\
    next_timer m' = next_timer m.
Proof.
  rewrite run_refresh.
  destruct (updateAllRoles_frame env cfg m) as (m' & Hrun & _ & Hi & _ & Hn & _).
  exists m'. auto.
Qed.

Lemma initialize_timer_aux env cfg g autoUpdate m :
  exists m',
    run env (initialize cfg g autoUpdate) m = (Normal tt, m') /\
    match autoUpdate, updateInterval (this m) with
    | true, None =>
        updateInterval (this m') = Some (next_timer m) /\
        next_timer m' = S (next_timer m)
    | _, _ =>
        updateInterval (this m') = updateInterval (this m) /\
        next_timer m' = next_timer m
    end.
Proof.
  rewrite run_initialize.
  destruct (updateAllRoles_frame env cfg
              (with_this (with_guild (Some g) (this m)) m))
    as (m1 & Hrun & _ & Hi & _ & Hn & _).
  rewrite Hrun. simpl in Hi, Hn. rewrite Hi.
  destruct autoUpdate, (updateInterval (this m)) as [t|]; simpl;
    eexists; (split; [reflexivity|]); simpl; split; congruence.
Qed.

(** The handles given out so far are below the next one. *)
Lemma reachable_handles cfg m :
  reachable cfg m ->
  forall t, updateInterval (this m) = Some t -> (t < next_timer m)%nat.
Proof.
  induction 1 as [|m env c Hreach IH]; [discriminate|].
  destruct c as [g autoUpdate| | | | |]; cbn [method].
  - destruct (initialize_timer_aux env cfg g autoUpdate m)
      as (m' & Hrun & Hcases). rewrite Hrun. simpl.
    destruct autoUpdate, (updateInterval (this m)) as [t0|] eqn:E;
      destruct Hcases as (Hi & Hn); rewrite Hi, Hn; intros t [= <-];
      try (apply IH; reflexivity); lia.
  - destruct (refresh_frame_aux env cfg m) as (m' & Hrun & Hi & Hn).
    rewrite Hrun. simpl. rewrite Hi, Hn. exact IH.
  - unfold stopAutoUpdate. simpl.
    destruct (updateInterval (this m)) eqn:E; simpl;
      [discriminate | rewrite E; discriminate].
  - exact IH.
  - rewrite run_bind.
    destruct (run_getStats env m) as (stats & m' & Hrun & Hthis & _).
    pose proof (getStats_frame env m) as (_ & _ & Hn & _).
    rewrite Hrun in Hn |- *. simpl in *. rewrite Hthis, Hn. exact IH.
  - unfold autoUpdateTick. fold (refresh cfg).
    destruct (refresh_frame_aux env cfg m) as (m' & Hrun & Hi & Hn).
    rewrite Hrun. simpl. rewrite Hi, Hn. exact IH.
Qed.

(** X5.  In a state reached by calls made one after the other,
    [stopAutoUpdate] leaves no timer active and no handle held, and touches
    neither the cache nor the guild binding nor the flag; a second
    [stopAutoUpdate] changes nothing; and an [initialize] with [autoUpdate]
    after it starts exactly one timer, under a handle that differs from the
    one that was stopped. *)
Theorem stopAutoUpdate_stops (cfg : list RoleConfig) (env : Env) (m : Machine) :
  reachable cfg m ->
  exists m1,
    run env stopAutoUpdate m = (Normal tt, m1) /\
    timers m1 = [] /\
    updateInterval (this m1) = None /\
    cache (this m1) = cache (this m) /\
    guild (this m1) = guild (this m) /\
    isUpdating (this m1) = isUpdating (this m) /\
    (forall env', run env' stopAutoUpdate m1 = (Normal tt, m1)) /\
    (forall env' g,
       let m2 := snd (run env' (initialize cfg g true) m1) in
       timers m2 = [next_timer m] /\
       updateInterval (this m2) = Some (next_timer m) /\
       updateInterval (this m) <> Some (next_timer m)).
Proof.
  intros Hreach.
  destruct (reachable_at_rest cfg m Hreach) as (_ & _ & Ht).
  pose proof (reachable_handles cfg m Hreach) as Hfresh.
  assert (Hstop : exists m1,
            run env stopAutoUpdate m = (Normal tt, m1) /\
            timers m1 = [] /\ updateInterval (this m1) = None /\
            cache (this m1) = cache (this m) /\
            guild (this m1) = guild (this m) /\
            isUpdating (this m1) = isUpdating (this m) /\
            next_timer m1 = next_timer m).
  { unfold stopAutoUpdate. simpl.
    destruct (updateInterval (this m)) as [t|] eqn:Hi; simpl; eexists;
      (split; [reflexivity|]); simpl; repeat split; auto.
    rewrite Ht. simpl. now rewrite Nat.eqb_refl. }
  destruct Hstop as (m1 & Hrun & Ht1 & Hi1 & Hc1 & Hg1 & Hu1 & Hn1).
  exists m1. repeat split; auto.
  - intros env'. unfold stopAutoUpdate. simpl. now rewrite Hi1.
  - rewrite run_initialize.
    destruct (updateAllRoles_frame env' cfg
                (with_this (with_guild (Some g) (this m1)) m1))
      as (m2 & Hrun2 & _ & Hi2 & Htm2 & Hn2 & _).
    rewrite Hrun2. simpl in Hi2, Htm2, Hn2. rewrite Hi2, Hi1. simpl.
    now rewrite Htm2, Ht1, Hn2, Hn1.
  - rewrite run_initialize.
    destruct (updateAllRoles_frame env' cfg
                (with_this (with_guild (Some g) (this m1)) m1))
      as (m2 & Hrun2 & _ & Hi2 & Htm2 & Hn2 & _).
    rewrite Hrun2. simpl in Hi2, Htm2, Hn2. rewrite Hi2, Hi1. simpl.
    now rewrite Hn2, Hn1.
  - intros Heq. specialize (Hfresh _ Heq). lia.
Qed.

Lemma stopAutoUpdate_stops_witness :
  exists m1,
    run Scenario.guildA stopAutoUpdate Scenario.initialized = (Normal tt, m1) /\
    timers m1 = [].
Proof.
  destruct (stopAutoUpdate_stops Scenario.hierarchy Scenario.guildA
              Scenario.initialized
              (reach_call Scenario.hierarchy boot Scenario.guildA
                 (CallInitialize Scenario.theGuild true)
                 (reach_boot Scenario.hierarchy)))
    as (m1 & H1 & H2 & _).
  exists m1. split; assumption.
Defined.

(** X6.  Between calls made one after the other -- the public methods and
    timer ticks, in any order, whatever the guild answers -- the in-flight
    flag is clear, the cache holds each role id once, and at most one
    auto-update timer is active: the one whose handle the instance holds,
    if it holds one. *)
Theorem instance_invariant (cfg : list RoleConfig) (m : Machine) :
  reachable cfg m ->
  isUpdating (this m) = false /\
  JsMap.wf (cache (this m)) /\
  (List.length (timers m) <= 1)%nat /\
  (forall t, In t (timers m) <-> updateInterval (this m) = Some t).
Proof.
  intros Hreach.
  destruct (reachable_at_rest cfg m Hreach) as (Hu & Hwf & Ht).
  split; [exact Hu|]. split; [exact Hwf|].
  rewrite Ht. destruct (updateInterval (this m)) as [t0|]; simpl.
  - split; [lia|]. intros t. split.
    + intros [->|[]]. reflexivity.
    + intros [= ->]. now left.
  - split; [lia|]. intros t. split; [intros [] | discriminate].
Qed.

Lemma instance_invariant_witness :
  isUpdating (this (run_calls Scenario.hierarchy Examples.session boot)) = false /\
  (List.length (timers (run_calls Scenario.hierarchy Examples.session boot))
   <= 1)%nat.
Proof.
  destruct (instance_invariant Scenario.hierarchy
              (run_calls Scenario.hierarchy Examples.session boot)
              (reach_call Scenario.hierarchy _ Scenario.guildB CallRefresh
                 (reach_call Scenario.hierarchy boot Scenario.guildA
                    (CallInitialize Scenario.theGuild true)
                    (reach_boot Scenario.hierarchy))))
    as (H1 & _ & H3 & _).
  split; assumption.
Defined.

(** ** What the entries are *)

Section EntryFacts.
Variable cfg : list RoleConfig.



End EntryFacts.



(** ** Looking a role up *)

Section LookupFacts.
Variable env : Env.
Variable g : Guild.

(** The role asked for at position [n] of the hierarchy resolves, and its id
    occurs nowhere else in the hierarchy: the loop leaves the entry written
    for it. *)
Lemma loop_written_at cfg : forall n m rc r,
  NoDup (map cfg_id cfg) ->
  nth_error cfg n = Some rc ->
  roles_fetch env (roles_calls m + n) g (cfg_id rc) = Fulfilled (Some r) ->
  exists k,
    (clock_reads m <= k < clock_reads (pass_loop env g cfg m))%nat /\
    JsMap.get (cfg_id rc) (cache (this (pass_loop env g cfg m))) =
    Some (entry_of rc r (clock env k)).
Proof.
  induction cfg as [|rc0 rest IH]; intros n m rc r Hnd Hn Hf;
    [destruct n; discriminate|].
  inversion Hnd as [|? ? Hnotin Hnd']; subst.
  unfold pass_loop. simpl.
  fold (pass_loop env g rest (cacheRole_step env g m rc0)).
  set (m1 := cacheRole_step env g m rc0).
  destruct (step_frame env g rc0 m) as (_ & _ & _ & _ & _ & _ & Hr & Hc).
  fold m1 in Hr, Hc.
  destruct (loop_frame env g rest m1) as (_ & _ & _ & _ & _ & _ & _ & Hc').
  destruct n as [|n]; simpl in Hn.
  - injection Hn as ->. rewrite Nat.add_0_r in Hf.
    exists (clock_reads m).
    pose proof (step_clock env g rc m) as Hk. fold m1 in Hk.
    rewrite Hf in Hk. simpl in Hk. split; [lia|].
    rewrite loop_retains.
    + unfold m1. rewrite step_cache, Hf. apply JsMapFacts.get_set_same.
    + intros n' rc' Hn' Hid. exfalso. apply Hnotin. rewrite <- Hid.
      apply in_map. now apply nth_error_In in Hn'.
  - destruct (IH n m1 rc r Hnd' Hn) as (k & Hk & Hget).
    + rewrite Hr. now replace (S (roles_calls m) + n)%nat
        with (roles_calls m + S n)%nat by lia.
    + exists k. split; [lia | exact Hget].
Qed.
End LookupFacts.

(** X8.  Insert and look up.  After a completed pass over a hierarchy with
    distinct role ids, for every role that resolved, [getRole] returns the
    role the guild returned and [getMembersByRole] returns that role's
    member set; for an id without a cache entry both return nothing. *)
Theorem lookup_after_refresh (env : Env) (cfg : list RoleConfig) (m : Machine)
    (g : Guild) (n : nat) (rc : RoleConfig) (r : Role) :
  guild (this m) = Some g ->
  isUpdating (this m) = false ->
  members_fetch env (members_calls m) g = Fulfilled tt ->
  NoDup (map cfg_id cfg) ->
  nth_error cfg n = Some rc ->
  roles_fetch env (roles_calls m + n) g (cfg_id rc) = Fulfilled (Some r) ->
  let s' := this (snd (run env (refresh cfg) m)) in
  getRole s' (cfg_id rc) = Some r /\
  getMembersByRole s' (cfg_id rc) = Some (role_members r) /\
  forall id, JsMap.has id (cache s') = false ->
             getRole s' id = None /\ getMembersByRole s' id = None.
Proof.
  intros Hg Hu Hf Hnd Hn Hr s'. subst s'.
  rewrite run_refresh, (run_updateAllRoles_completed env g cfg m Hg Hu Hf).
  cbn [snd]. unfold getRole, getMembersByRole. rewrite pass_result_cache.
  destruct (loop_written_at env g cfg n
              (count_members_call (with_this (with_isUpdating true (this m)) m))
              rc r Hnd Hn Hr) as (k & _ & Hget).
  rewrite Hget. repeat split.
  - unfold JsMap.has in H. now destruct (JsMap.get id _).
  - unfold JsMap.has in H. now destruct (JsMap.get id _).
Qed.

Lemma lookup_after_refresh_witness :
  getMembersByRole
    (this (snd (run Scenario.guildB (refresh Scenario.hierarchy)
                  Scenario.initialized))) "200" =
  Some [("y", Scenario.Y)].
Proof.
  apply (lookup_after_refresh Scenario.guildB Scenario.hierarchy
           Scenario.initialized Scenario.theGuild 1 Scenario.SrMod
           (mkRole "200" [("y", Scenario.Y)])); try reflexivity.
  repeat constructor; simpl; intuition discriminate.
Defined.

(** ** Before the guild is bound *)

Section UnboundFacts.
Variable cfg : list RoleConfig.

Lemma unbound_call env c m :
  guild (this m) = None ->
  is_initialize c = false ->
  let m' := snd (run env (method cfg c) m) in
  guild (this m') = None /\
  members_calls m' = members_calls m /\
  roles_calls m' = roles_calls m /\
  (cache (this m') = cache (this m) \/ cache (this m') = []).
Proof.
  intros Hg Hc.
  destruct c as [g autoUpdate| | | | |]; [discriminate| | | | |]; cbn [method].
  - rewrite run_refresh, run_updateAllRoles_unbound by exact Hg. simpl. auto.
  - unfold stopAutoUpdate. simpl.
    destruct (updateInterval (this m)); simpl; auto.
  - simpl. auto.
  - rewrite run_bind.
    destruct (run_getStats env m) as (stats & m' & Hrun & Hthis & _).
    pose proof (getStats_frame env m) as (_ & _ & _ & Hm & Hr).
    rewrite Hrun in Hm, Hr |- *. simpl in *. rewrite Hthis. auto.
  - unfold autoUpdateTick. rewrite run_await_own, run_updateAllRoles_unbound
      by exact Hg. simpl. auto.
Qed.
End UnboundFacts.

(** X9.  As long as [initialize] has not been called, no call contacts the
    guild: from the fresh singleton, any sequence of [refresh],
    [stopAutoUpdate], [clear], [getStats] and timer ticks leaves the guild
    unbound, makes no member fetch and no role fetch, and leaves the cache
    empty. *)
Theorem unbound_never_fetches (cfg : list RoleConfig) (cs : list (Env * call)) :
  forallb (fun ec => negb (is_initialize (snd ec))) cs = true ->
  let m' := run_calls cfg cs boot in
  guild (this m') = None /\
  members_calls m' = O /\
  roles_calls m' = O /\
  cache (this m') = [].
Proof.
  intros Hcs.
  assert (Hgen : forall m,
            guild (this m) = None -> cache (this m) = [] ->
            let m' := run_calls cfg cs m in
            guild (this m') = None /\
            members_calls m' = members_calls m /\
            roles_calls m' = roles_calls m /\
            cache (this m') = []).
  { induction cs as [|[env c] cs' IH]; intros m Hg Hc; [simpl; auto|].
    simpl in Hcs. apply andb_true_iff in Hcs. destruct Hcs as [Hc0 Hcs'].
    apply negb_true_iff in Hc0.
    destruct (unbound_call cfg env c m Hg Hc0) as (Hg1 & Hm1 & Hr1 & Hc1).
    simpl. destruct (IH Hcs' _ Hg1) as (I1 & I2 & I3 & I4).
    - destruct Hc1 as [Hc1|Hc1]; congruence.
    - repeat split; auto; congruence. }
  apply (Hgen boot); reflexivity.
Qed.

Lemma unbound_never_fetches_witness :
  members_calls
    (run_calls Scenario.hierarchy
       [(Scenario.guildA, CallRefresh); (Scenario.guildA, TimerTick);
        (Scenario.guildA, CallGetStats)] boot) = O.
Proof.
  apply (unbound_never_fetches Scenario.hierarchy
           [(Scenario.guildA, CallRefresh); (Scenario.guildA, TimerTick);
            (Scenario.guildA, CallGetStats)]).
  reflexivity.
Defined.

(** ** Sorting, once more *)

Section SortMoreFacts.
Context {A : Type}.

Lemma sort_insert_ext (c1 c2 : A -> A -> Z) x l :
  (forall a b, (c1 a b <=? 0) = (c2 a b <=? 0)) ->
  sort_insert c1 x l = sort_insert c2 x l.
Proof.
  intros Hext. induction l as [|y l IH]; simpl; [reflexivity|].
  now rewrite Hext, IH.
Qed.

Lemma js_sort_ext (c1 c2 : A -> A -> Z) l :
  (forall a b, (c1 a b <=? 0) = (c2 a b <=? 0)) ->
  js_sort c1 l = js_sort c2 l.
Proof.
  intros Hext. induction l as [|x l IH]; simpl; [reflexivity|].
  now rewrite IH, (sort_insert_ext c1 c2).
Qed.

Lemma StronglySorted_weaken (R R' : A -> A -> Prop) l :
  (forall a b, R a b -> R' a b) -> StronglySorted R l -> StronglySorted R' l.
Proof.
  intros Himp. induction 1 as [|x l Hl IH Hx]; constructor; auto.
  rewrite Forall_forall in *. auto.
Qed.

Variable key : A -> Z.
Let cmp : A -> A -> Z := fun a b => key b - key a.

Lemma filter_sort_insert (p : A -> bool) x l :
  StronglySorted (fun a b => key b <= key a) l ->
  filter p (sort_insert cmp x l) =
  if p x then sort_insert cmp x (filter p l) else filter p l.
Proof.
  induction 1 as [|y l Hl IH Hy].
  - simpl. now destruct (p x).
  - simpl sort_insert. unfold cmp at 1.
    destruct (key y - key x <=? 0) eqn:C.
    + apply Z.leb_le in C.
      assert (Hhead : forall l0,
                Forall (fun z => key z <= key x) l0 ->
                sort_insert cmp x l0 = x :: l0).
      { intros [|z l0] Hl0; [reflexivity|]. simpl. unfold cmp at 1.
        inversion Hl0 as [|? ? Hz _]; subst.
        destruct (key z - key x <=? 0) eqn:C'; [reflexivity|].
        apply Z.leb_gt in C'. lia. }
      assert (HF : Forall (fun z => key z <= key x) (filter p (y :: l))).
      { apply Forall_forall. intros z Hz. apply filter_In in Hz.
        destruct Hz as [[<-|Hz] _]; [lia|].
        rewrite Forall_forall in Hy. specialize (Hy z Hz). lia. }
      change (filter p (x :: y :: l))
        with (if p x then x :: filter p (y :: l) else filter p (y :: l)).
      destruct (p x); [|reflexivity].
      symmetry. apply Hhead, HF.
    + change (filter p (y :: sort_insert cmp x l))
        with (if p y then y :: filter p (sort_insert cmp x l)
              else filter p (sort_insert cmp x l)).
      rewrite IH. simpl filter.
      destruct (p y), (p x); try reflexivity.
      cbn [sort_insert]. change (cmp x y) with (key y - key x).
      now rewrite C.
Qed.

(** Filtering commutes with sorting. *)
Lemma filter_js_sort (p : A -> bool) l :
  filter p (js_sort cmp l) = js_sort cmp (filter p l).
Proof.
  induction l as [|x l IH]; [reflexivity|].
  simpl js_sort. rewrite filter_sort_insert by apply js_sort_sorted.
  simpl filter. destruct (p x); [simpl; now rewrite IH | exact IH].
Qed.

Lemma filter_head_find (p : A -> bool) l :
  match filter p l with
  | e :: _ => Some e
  | [] => None
  end = find p l.
Proof.
  induction l as [|x l IH]; [reflexivity|].
  simpl. now destruct (p x).
Qed.

Lemma filter_split (p : A -> bool) l : forall h1 e h2,
  filter p l = h1 ++ e :: h2 ->
  exists l1 l2, l = l1 ++ e :: l2 /\ filter p l1 = h1 /\ filter p l2 = h2.
Proof.
  induction l as [|x l IH]; intros h1 e h2 H; simpl in H.
  - destruct h1; discriminate.
  - destruct (p x) eqn:Px.
    + destruct h1 as [|y h1]; simpl in H.
      * injection H as -> <-. exists [], l. simpl. auto.
      * injection H as -> H. destruct (IH _ _ _ H) as (l1 & l2 & -> & H1 & H2).
        exists (y :: l1), l2. simpl. rewrite Px, H1. auto.
    + destruct (IH _ _ _ H) as (l1 & l2 & -> & H1 & H2).
      exists (x :: l1), l2. simpl. rewrite Px. auto.
Qed.

End SortMoreFacts.

Lemma js_sort_map {A B} (f : A -> B) (cA : A -> A -> Z) (cB : B -> B -> Z) l :
  (forall a b, cB (f a) (f b) = cA a b) ->
  js_sort cB (map f l) = map f (js_sort cA l).
Proof.
  intros Hc.
  assert (Hins : forall x l0,
            sort_insert cB (f x) (map f l0) = map f (sort_insert cA x l0)).
  { intros x l0. induction l0 as [|y l0 IH]; [reflexivity|].
    simpl. rewrite Hc. destruct (cA x y <=? 0); simpl; [reflexivity|].
    now rewrite IH. }
  induction l as [|x l IH]; [reflexivity|].
  simpl. now rewrite IH, Hins.
Qed.

Lemma sum_member_sizes_perm l l' :
  Permutation l l' -> sum_member_sizes l = sum_member_sizes l'.
Proof.
  induction 1; simpl; try lia.
Qed.

(** ** Roles by rank *)

(** X10.  [getRolesByRank] returns all cached entries, each once, ordered
    by rank: highest first when [descending], lowest first otherwise.
    Entries of equal rank keep their order in the cache. *)
Theorem getRolesByRank_sorted (s : RoleCache) (descending : bool) :
  Permutation (getRolesByRank s descending) (JsMap.values (cache s)) /\
  List.length (getRolesByRank s descending) = JsMap.size (cache s) /\
  StronglySorted
    (fun a b => if descending then rank b <= rank a else rank a <= rank b)
    (getRolesByRank s descending) /\
  forall v,
    filter (fun e => rank e =? v) (getRolesByRank s descending) =
    filter (fun e => rank e =? v) (JsMap.values (cache s)).
Proof.
  assert (Hasc : forall l,
            js_sort (fun a b : RoleCacheEntry => rank a - rank b) l =
            js_sort (fun a b => (fun e => - rank e) b - (fun e => - rank e) a) l).
  { intros l. apply js_sort_ext. intros a b.
    destruct (rank a - rank b <=? 0) eqn:C; symmetry.
    - apply Z.leb_le in C. apply Z.leb_le. lia.
    - apply Z.leb_gt in C. apply Z.leb_gt. lia. }
  unfold getRolesByRank. destruct descending.
  - assert (P := js_sort_perm rank (JsMap.values (cache s))).
    split; [exact P|]. split.
    + rewrite (Permutation_length P). unfold JsMap.values, JsMap.size.
      apply length_map.
    + split; [apply (js_sort_sorted rank) | intros v; apply (js_sort_stable rank)].
  - rewrite Hasc.
    assert (P := js_sort_perm (fun e => - rank e) (JsMap.values (cache s))).
    split; [exact P|]. split.
    + rewrite (Permutation_length P). unfold JsMap.values, JsMap.size.
      apply length_map.
    + split.
      * apply (StronglySorted_weaken (fun a b => - rank b <= - rank a));
          [intros a b; lia | apply (js_sort_sorted (fun e => - rank e))].
      * intros v.
        assert (Hf : forall l,
                  filter (fun e => rank e =? v) l =
                  filter (fun e => - rank e =? - v) l).
        { intros l. apply filter_ext. intros e.
          destruct (rank e =? v) eqn:E; symmetry.
          - apply Z.eqb_eq in E. apply Z.eqb_eq. lia.
          - apply Z.eqb_neq in E. apply Z.eqb_neq. lia. }
        rewrite !Hf. apply (js_sort_stable (fun e => - rank e)).
Qed.

(** X11.  [getHighestStaffRole(u)] is the first entry of
    [getRolesByRank(true)] whose member set contains [u].  When several
    entries containing [u] share the highest rank, it is the one that comes
    first in the cache: every entry before it that contains [u] has a
    strictly lower rank. *)
Theorem getHighestStaffRole_first_ranked (s : RoleCache) (u : string) :
  getHighestStaffRole s u =
  find (fun entry => JsMap.has u (members entry)) (getRolesByRank s true) /\
  forall e,
    getHighestStaffRole s u = Some e ->
    exists l1 l2,
      JsMap.values (cache s) = l1 ++ e :: l2 /\
      forall e', In e' l1 -> JsMap.has u (members e') = true ->
                 rank e' < rank e.
Proof.
  split.
  - unfold getHighestStaffRole, getRolesByRank.
    rewrite <- (filter_js_sort rank). apply filter_head_find.
  - intros e He. unfold getHighestStaffRole in He.
    destruct (js_sort _ _) as [|e0 rest] eqn:E; [discriminate|].
    injection He as ->.
    destruct (js_sort_head rank _ e rest E) as (h1 & h2 & Hh & Hlt & _).
    destruct (filter_split _ _ _ _ _ Hh) as (l1 & l2 & Hl & H1 & _).
    exists l1, l2. split; [exact Hl|].
    intros e' Hin Hhas. apply Hlt. rewrite <- H1. apply filter_In. auto.
Qed.

Lemma getHighestStaffRole_tie :
  exists e, getHighestStaffRole Examples.tied "u" = Some e /\ roleId e = "a".
Proof. eexists. split; reflexivity. Qed.

(** ** Looking a role up by name or by rank *)




(** ** The statistics *)

(** X13.  [getStats] returns, and changes nothing of the instance.  Its
    [roleBreakdown] lists the entries in the order of
    [getRolesByRank(true)], each with its name, rank, id and the size of
    its member set; it has [totalRoles] elements; and [totalStaffMembers]
    is at most the sum of the member counts listed. *)
Theorem getStats_breakdown (env : Env) (m : Machine) :
  exists stats m',
    run env getStats m = (Normal stats, m') /\
    this m' = this m /\
    roleBreakdown stats = map breakdown_of (getRolesByRank (this m) true) /\
    List.length (roleBreakdown stats) = totalRoles stats /\
    (totalStaffMembers stats <= sum_memberCount (roleBreakdown stats))%nat.
Proof.
  assert (Hbd : forall s,
            js_sort (fun a b => b_rank b - b_rank a)
              (map (fun entry =>
                      {| b_roleName := roleName entry; b_rank := rank entry;
                         b_memberCount := JsMap.size (members entry);
                         b_roleId := roleId entry |})
                 (JsMap.values (cache s))) =
            map breakdown_of (getRolesByRank s true)).
  { intros s. unfold getRolesByRank.
    apply (js_sort_map breakdown_of (fun a b => rank b - rank a)).
    reflexivity. }
  assert (Hsum : forall l,
            sum_memberCount (map breakdown_of l) = sum_member_sizes l).
  { induction l as [|x l IH]; simpl; [reflexivity | now rewrite IH]. }
  assert (Hfacts :
    List.length (map breakdown_of (getRolesByRank (this m) true)) =
      JsMap.size (cache (this m)) /\
    (JsMap.size (getAllStaffMembers (this m)) <=
     sum_memberCount (map breakdown_of (getRolesByRank (this m) true)))%nat).
  { assert (P := js_sort_perm rank (JsMap.values (cache (this m)))).
    unfold getRolesByRank. split.
    - rewrite length_map, (Permutation_length P).
      unfold JsMap.values, JsMap.size. apply length_map.
    - rewrite Hsum, (sum_member_sizes_perm _ _ P).
      apply (all_from_size_le (JsMap.values (cache (this m))) JsMap.empty). }
  destruct Hfacts as [Hlen Hle].
  unfold getStats. cbn [bind read_this run perform].
  rewrite Hbd.
  destruct (map lastUpdated (JsMap.values (cache (this m)))) as [|x xs];
    cbn [bind run Date_now perform]; do 2 eexists;
    (split; [reflexivity|]); cbn [roleBreakdown totalRoles totalStaffMembers];
    repeat split; assumption.
Qed.

(** ** Clearing *)

(** X14.  After [clear] the instance answers as one with an empty cache:
    nobody is staff, no role or member set is found, the listings are
    empty, the statistics count nothing and measure the cache age between
    two consecutive readings of the clock.  [clear] leaves the guild
    binding, the timer and the flag alone. *)
Theorem clear_resets (env : Env) (m : Machine) :
  exists m',
    run env clear m = (Normal tt, m') /\
    guild (this m') = guild (this m) /\
    updateInterval (this m') = updateInterval (this m) /\
    isUpdating (this m') = isUpdating (this m) /\
    timers m' = timers m /\
    (forall u, isStaff (this m') u = false /\
               getHighestStaffRole (this m') u = None) /\
    (forall id, getMembersByRole (this m') id = None /\
                getRole (this m') id = None) /\
    getAllStaffMembers (this m') = [] /\
    (forall d, getRolesByRank (this m') d = []) /\
    exists stats m'',
      run env getStats m' = (Normal stats, m'') /\
      totalRoles stats = O /\ totalStaffMembers stats = O /\
      roleBreakdown stats = [] /\
      oldestCacheAge stats =
        clock env (S (clock_reads m)) - clock env (clock_reads m).
Proof.
  eexists. split; [reflexivity|]. simpl.
  repeat split; try (now destruct d).
  do 2 eexists. repeat split.
Qed.

(** X15.  [clear] followed by a completed pass over a hierarchy with
    distinct role ids leaves exactly the roles that resolve in the pass,
    in hierarchy order; an entry for a role that does not resolve, which a
    pass alone would have kept, is gone. *)
Theorem clear_then_refresh (env0 env : Env) (cfg : list RoleConfig)
    (m : Machine) (g : Guild) :
  guild (this m) = Some g ->
  isUpdating (this m) = false ->
  members_fetch env (members_calls m) g = Fulfilled tt ->
  NoDup (map cfg_id cfg) ->
  let m1 := snd (run env0 clear m) in
  let m2 := snd (run env (refresh cfg) m1) in
  JsMap.keys (cache (this m2)) =
    map cfg_id (resolving env g (roles_calls m) cfg) /\
  forall id,
    ~ In id (map cfg_id (resolving env g (roles_calls m) cfg)) ->
    JsMap.get id (cache (this m2)) = None /\
    JsMap.get id (cache (this (snd (run env (refresh cfg) m)))) =
    JsMap.get id (cache (this m)).
Proof.
  intros Hg Hu Hf Hnd m1 m2.
  assert (Hkeys : JsMap.keys (cache (this m2)) =
                  map cfg_id (resolving env g (roles_calls m) cfg)).
  { subst m2 m1. rewrite run_refresh.
    rewrite (run_updateAllRoles_completed env g cfg
               (snd (run env0 clear m)) Hg Hu Hf).
    cbn [snd]. rewrite pass_result_cache.
    rewrite (loop_appends env g cfg _ Hnd); [reflexivity|].
    intros rc _. reflexivity. }
  split; [exact Hkeys|].
  intros id Hnot. split.
  - destruct (JsMap.get id (cache (this m2))) as [e|] eqn:E; [|reflexivity].
    exfalso. apply Hnot. rewrite <- Hkeys.
    apply JsMapFacts.has_In_keys. unfold JsMap.has. now rewrite E.
  - rewrite run_refresh, (run_updateAllRoles_completed env g cfg m Hg Hu Hf).
    cbn [snd]. rewrite pass_result_cache.
    exact (loop_retains env g cfg id
             (count_members_call (with_this (with_isUpdating true (this m)) m))
             (not_resolving env g cfg id (roles_calls m) Hnot)).
Qed.

Lemma clear_then_refresh_witness :
  JsMap.keys
    (cache (this (snd (run Scenario.guildB (refresh Scenario.hierarchy)
                         (snd (run Scenario.guildB clear Scenario.initialized))))))
  = ["100"; "200"].
Proof.
  apply (clear_then_refresh Scenario.guildB Scenario.guildB Scenario.hierarchy
           Scenario.initialized Scenario.theGuild); try reflexivity.
  repeat constructor; simpl; intuition discriminate.
Defined.

(** ** The reputation command *)

Section AllStaffFacts.
Variable s : RoleCache.

Lemma addMembers_In kv ms : forall acc,
  In kv (addMembers acc ms) -> In kv acc \/ In kv ms.
Proof.
  induction ms as [|[k v] ms IH]; intros acc H; [now left|].
  unfold addMembers in *. simpl in H.
  destruct (JsMap.has k acc) eqn:Hk.
  - destruct (IH _ H); [now left | right; now right].
  - destruct (IH _ H) as [H0|H0]; [|right; now right].
    rewrite set_fresh in H0 by exact Hk.
    apply in_app_or in H0. destruct H0 as [H0|[<-|[]]]; [now left|].
    right. now left.
Qed.

Lemma getAllStaffMembers_In k mem :
  In (k, mem) (getAllStaffMembers s) ->
  exists e, In e (JsMap.values (cache s)) /\ In (k, mem) (members e).
Proof.
  unfold getAllStaffMembers.
  assert (Hgen : forall entries acc,
            In (k, mem)
              (fold_left (fun allStaff entry => addMembers allStaff (members entry))
                 entries acc) ->
            In (k, mem) acc \/
            exists e, In e entries /\ In (k, mem) (members e)).
  { induction entries as [|e es IH]; intros acc H; [now left|].
    simpl in H. destruct (IH _ H) as [H0|(e' & He' & H0)].
    - apply addMembers_In in H0. destruct H0; [now left|].
      right. exists e. split; [now left | assumption].
    - right. exists e'. split; [now right | assumption]. }
  intros H. destruct (Hgen _ _ H) as [[]|H0]. exact H0.
Qed.

Lemma getAllStaffMembers_wf : JsMap.wf (getAllStaffMembers s).
Proof. apply all_from_wf. constructor. Qed.

(** A user is staff exactly when the union of the member sets has the
    user. *)
Lemma isStaff_getAllStaffMembers u :
  isStaff s u = true <-> JsMap.has u (getAllStaffMembers s) = true.
Proof.
  rewrite isStaff_true. unfold JsMap.has at 2, getAllStaffMembers.
  rewrite all_from_get. cbn [JsMap.get JsMap.empty].
  symmetry. apply first_holder_has.
Qed.

Lemma wf_In_get {V} (c : JsMap.t V) k v :
  JsMap.wf c -> In (k, v) c -> JsMap.get k c = Some v.
Proof.
  unfold JsMap.wf. induction c as [|[k' v'] c IH]; simpl; [intros _ []|].
  intros Hnd [[= -> ->]|Hin].
  - now rewrite String.eqb_refl.
  - inversion Hnd as [|? ? Hk' Hnd']; subst.
    destruct (String.eqb k k') eqn:E; [|now apply IH].
    apply String.eqb_eq in E. subst k'. exfalso. apply Hk'.
    change k with (fst (k, v)). now apply in_map.
Qed.
End AllStaffFacts.

(** X16.  The checks of the reputation command.  The answer "member not
    found in cache" is never given: a target that passes the staff check is
    in the union of the member sets.  Nobody, developers included, gets
    past the checks with themselves as target; and a target is accepted
    only for a developer or a holder of the manager role, only if it is
    staff, and then with the member object of the first cached role that
    has the target. *)
Theorem execute_checks_sound (developerIds : list string) (manager : string)
    (s : RoleCache) (userId : string) (executorRoles : list string)
    (targetId : string) :
  execute_checks developerIds manager s userId executorRoles targetId
    <> NotFoundInCache /\
  (targetId = userId ->
   execute_checks developerIds manager s userId executorRoles targetId
     = AntiAbuse) /\
  forall mem,
    execute_checks developerIds manager s userId executorRoles targetId
      = Target mem ->
    targetId <> userId /\
    (In userId developerIds \/ In manager executorRoles) /\
    isStaff s targetId = true /\
    first_holder targetId (JsMap.values (cache s)) = Some mem.
Proof.
  unfold execute_checks.
  assert (Hall : forall u, JsMap.get u (getAllStaffMembers s) =
                           first_holder u (JsMap.values (cache s))).
  { intros u. unfold getAllStaffMembers. now rewrite all_from_get. }
  split; [|split].
  - destruct (String.eqb targetId userId); [discriminate|].
    destruct (negb _ && negb _)%bool; [discriminate|].
    destruct (isStaff s targetId) eqn:St; [|discriminate]. simpl.
    apply isStaff_getAllStaffMembers in St. unfold JsMap.has in St.
    destruct (JsMap.get targetId (getAllStaffMembers s)); discriminate.
  - intros ->. now rewrite String.eqb_refl.
  - intros mem.
    destruct (String.eqb targetId userId) eqn:E; [discriminate|].
    apply String.eqb_neq in E.
    destruct (existsb (String.eqb userId) developerIds) eqn:D;
      destruct (existsb (String.eqb manager) executorRoles) eqn:M; simpl;
      try discriminate;
      (destruct (isStaff s targetId) eqn:St; [|discriminate]); simpl;
      rewrite Hall;
      (destruct (first_holder targetId (JsMap.values (cache s))) as [mem0|];
       [|discriminate]); intros [= ->]; repeat split; auto.
    + left. apply existsb_exists in D. destruct D as (x & Hx & Hq).
      apply String.eqb_eq in Hq. now subst.
    + left. apply existsb_exists in D. destruct D as (x & Hx & Hq).
      apply String.eqb_eq in Hq. now subst.
    + right. apply existsb_exists in M. destruct M as (x & Hx & Hq).
      apply String.eqb_eq in Hq. now subst.
Qed.

(** X17.  The suggestions of the reputation command.  With every member
    filed under its own id, [autocomplete] suggests at most 25 members, no
    member twice even when the member holds several staff roles; every
    suggestion is a staff member that matches the query, and is labelled
    with the name of that member's highest staff role, never "Unknown".
    With nothing cached it suggests nothing. *)
Theorem autocomplete_choices (username : GuildMember -> string)
    (nickname : GuildMember -> option string) (toLowerCase : string -> string)
    (s : RoleCache) (focused : string) :
  keyed_by_id s ->
  let choices := autocomplete username nickname toLowerCase s focused in
  (List.length choices <= 25)%nat /\
  NoDup (map choice_value choices) /\
  (cache s = [] -> choices = []) /\
  forall c, In c choices ->
    exists mem e,
      JsMap.get (choice_value c) (getAllStaffMembers s) = Some mem /\
      member_id mem = choice_value c /\
      matches_query username nickname toLowerCase (toLowerCase focused) mem
        = true /\
      isStaff s (choice_value c) = true /\
      getHighestStaffRole s (choice_value c) = Some e /\
      choice_name c = (username mem ++ " [" ++ roleName e ++ "]")%string.
Proof.
  intros Hkeyed choices. subst choices. unfold autocomplete.
  set (q := toLowerCase focused).
  set (allStaff := getAllStaffMembers s).
  set (filtered := collection_filter (matches_query username nickname toLowerCase q)
                     allStaff).
  assert (Hwf : JsMap.wf allStaff) by apply getAllStaffMembers_wf.
  assert (Hid : forall k mem, In (k, mem) allStaff -> member_id mem = k).
  { intros k mem Hin. apply getAllStaffMembers_In in Hin.
    destruct Hin as (e & He & Hin). exact (Hkeyed e k mem He Hin). }
  assert (Hsub : forall kv, In kv filtered ->
                   In kv allStaff /\
                   matches_query username nickname toLowerCase q (snd kv) = true).
  { intros kv Hin. unfold filtered, collection_filter in Hin.
    now apply filter_In in Hin. }
  assert (Hvals : map member_id (JsMap.values filtered) = JsMap.keys filtered).
  { unfold JsMap.values, JsMap.keys. rewrite map_map. apply map_ext_in.
    intros [k mem] Hin. simpl. apply Hid. now apply Hsub. }
  assert (Hnd : NoDup (JsMap.keys filtered)).
  { unfold filtered, collection_filter, JsMap.keys.
    clear - Hwf. unfold JsMap.wf, JsMap.keys in Hwf.
    induction allStaff as [|[k mem] c IH]; simpl; [constructor|].
    inversion Hwf as [|? ? Hk Hc]; subst.
    destruct (matches_query _ _ _ _ mem); simpl; [|now apply IH].
    constructor; [|now apply IH].
    intros Hin. apply Hk. apply in_map_iff in Hin.
    destruct Hin as (kv & <- & Hin). apply filter_In in Hin.
    apply in_map. tauto. }
  destruct (Nat.eqb (JsMap.size allStaff) 0) eqn:Hsz.
  - simpl. split; [lia|]. split; [constructor|]. split; [reflexivity|].
    intros c [].
  - split; [|split; [|split]].
    + rewrite length_map. unfold collection_first. apply firstn_le_length.
    + rewrite map_map. cbn [choice_value]. unfold collection_first.
      rewrite (map_ext _ member_id) by reflexivity.
      rewrite <- firstn_map, Hvals.
      rewrite <- (firstn_skipn 25 (JsMap.keys filtered)) in Hnd.
      now apply NoDup_app_remove_r in Hnd.
    + intros Hc. exfalso. apply Nat.eqb_neq in Hsz. apply Hsz.
      unfold allStaff, getAllStaffMembers. now rewrite Hc.
    + intros c Hc. apply in_map_iff in Hc. destruct Hc as (mem & <- & Hin).
      cbn [choice_value choice_name].
      unfold collection_first in Hin.
      assert (Hin' : In mem (JsMap.values filtered)).
      { rewrite <- (firstn_skipn 25 (JsMap.values filtered)).
        apply in_or_app. now left. }
      unfold JsMap.values in Hin'. apply in_map_iff in Hin'.
      destruct Hin' as ([k mem0] & Hm & Hkv). simpl in Hm. subst mem0.
      destruct (Hsub _ Hkv) as [Hall Hmatch]. simpl in Hmatch.
      pose proof (Hid k mem Hall) as Hk.
      assert (Hget : JsMap.get (member_id mem) allStaff = Some mem).
      { rewrite Hk. now apply wf_In_get. }
      assert (Hstaff : isStaff s (member_id mem) = true).
      { apply isStaff_getAllStaffMembers. fold allStaff.
        unfold JsMap.has. now rewrite Hget. }
      destruct (getHighestStaffRole s (member_id mem)) as [e|] eqn:Hh.
      * exists mem, e. repeat split; auto.
      * exfalso. apply isStaff_true in Hstaff.
        destruct Hstaff as (e & He & Hhas).
        rewrite (proj1 (getHighestStaffRole_None s (member_id mem)) Hh e He)
          in Hhas. discriminate.
Qed.

Lemma autocomplete_choices_witness :
  autocomplete Examples.uname Examples.nick Examples.lower
    (this Scenario.initialized) "X" = [mkChoice "X [Admin]" "x"] /\
  NoDup (map choice_value
           (autocomplete Examples.uname Examples.nick Examples.lower
              (this Scenario.initialized) "X")).
Proof.
  split; [vm_compute; reflexivity|].
  apply (autocomplete_choices Examples.uname Examples.nick Examples.lower
           (this Scenario.initialized) "X").
  intros e k mem He Hin. vm_compute in He.
  destruct He as [<-|[<-|[<-|[]]]]; simpl in Hin;
    destruct Hin as [[= <- <-]|[]]; reflexivity.
Defined.

(** [includes] is the search for a substring. *)
Lemma includes_spec (s sub : string) :
  includes s sub = true <->
  exists a b, s = (a ++ sub ++ b)%string.
Proof.
  assert (Hpre : forall p t, String.prefix p t = true <->
                             exists b, t = (p ++ b)%string).
  { induction p as [|c p IH]; intros t.
    - destruct t; simpl; split; eauto.
    - destruct t as [|c' t]; simpl.
      + split; [discriminate | intros (b & H); discriminate].
      + destruct (Ascii.ascii_dec c c') as [->|Hne].
        * rewrite IH. split; intros (b & H); exists b; [now rewrite H|].
          now injection H.
        * split; [discriminate|]. intros (b & H). injection H as H _.
          congruence. }
  induction s as [|c s IH]; cbn [includes].
  - destruct (String.prefix sub "") eqn:P.
    + split; [|reflexivity]. intros _. apply Hpre in P. destruct P as (b & Hb).
      exists ""%string, b. exact Hb.
    + split; [discriminate|]. intros (a & b & H).
      destruct a; simpl in H; [|discriminate].
      assert (String.prefix sub "" = true) by (apply Hpre; now exists b).
      congruence.
  - destruct (String.prefix sub (String c s)) eqn:P.
    + split; [|reflexivity]. intros _. apply Hpre in P. destruct P as (b & Hb).
      exists ""%string, b. exact Hb.
    + rewrite IH. split.
      * intros (a & b & ->). now exists (String c a), b.
      * intros (a & b & H). destruct a as [|c' a]; simpl in H.
        -- assert (String.prefix sub (String c s) = true)
             by (apply Hpre; now exists b).
           congruence.
        -- injection H as _ ->. now exists a, b.
Qed.

(** ** A pass under way *)

Section SuspensionCount.
Variable env : Env.
Variable g : Guild.

Lemma suspensions_loop_length cfg : forall m,
  guild (this m) = Some g ->
  List.length (suspensions env (for_of cfg cacheRole) m) = List.length cfg.
Proof.
  induction cfg as [|rc rest IH]; intros m Hg; cbn [for_of]; [reflexivity|].
  rewrite suspensions_bind, (suspensions_cacheRole env g rc m Hg),
    (run_cacheRole env g rc m Hg).
  simpl. f_equal. apply IH.
  destruct (step_frame env g rc m) as (-> & _). exact Hg.
Qed.

Lemma suspensions_updateAllRoles_length cfg m :
  guild (this m) = Some g ->
  isUpdating (this m) = false ->
  List.length (suspensions env (updateAllRoles cfg) m) =
  match members_fetch env (members_calls m) g with
  | Fulfilled _ => S (List.length cfg)
  | Rejected _ => 1%nat
  end.
Proof.
  intros Hg Hu. unfold updateAllRoles. rewrite suspensions_read_bind.
  rewrite Hg, Hu. rewrite suspensions_modify_bind.
  set (m1 := with_this (with_isUpdating true (this m)) m).
  assert (Hg1 : guild (this m1) = Some g) by exact Hg.
  rewrite suspensions_try_finally, suspensions_try_catch, suspensions_modify,
    app_nil_r.
  rewrite (run_pass_body env g cfg m1 Hg1).
  rewrite suspensions_read_bind. unfold deref_guild. rewrite Hg1. cbn [bind].
  rewrite suspensions_bind.
  cbn [await_members_fetch suspensions run perform is_await].
  change (members_calls m1) with (members_calls m).
  destruct (members_fetch env (members_calls m) g) as [u|e];
    cbn [settle suspensions run app List.length]; rewrite ?app_nil_r;
    [|reflexivity].
  f_equal. apply suspensions_loop_length. exact Hg.
Qed.
End SuspensionCount.

(** X18.  A pass started on a bound, idle instance gives control back once
    at the bulk member fetch and, if that is fulfilled, once more at each
    role fetch.  In every state in which it is suspended the in-flight flag
    is set, so a [refresh()] that arrives then is dropped: it returns
    normally and changes nothing. *)
Theorem pass_suspension_points (env : Env) (cfg : list RoleConfig)
    (m : Machine) (g : Guild) :
  guild (this m) = Some g ->
  isUpdating (this m) = false ->
  List.length (suspensions env (updateAllRoles cfg) m) =
    match members_fetch env (members_calls m) g with
    | Fulfilled _ => S (List.length cfg)
    | Rejected _ => 1%nat
    end /\
  forall m0, In m0 (suspensions env (updateAllRoles cfg) m) ->
    isUpdating (this m0) = true /\
    forall env', run env' (refresh cfg) m0 = (Normal tt, m0).
Proof.
  intros Hg Hu. split; [now apply suspensions_updateAllRoles_length|].
  intros m0 Hin.
  pose proof (suspensions_updateAllRoles env cfg m) as Hall.
  rewrite Forall_forall in Hall. specialize (Hall m0 Hin).
  split; [exact Hall|]. intros env'.
  rewrite run_refresh. now apply run_updateAllRoles_busy.
Qed.

Lemma pass_suspension_points_witness :
  List.length
    (suspensions Scenario.guildA (updateAllRoles Scenario.hierarchy)
       Scenario.initialized) = 4%nat.
Proof.
  apply (pass_suspension_points Scenario.guildA Scenario.hierarchy
           Scenario.initialized Scenario.theGuild); reflexivity.
Defined.

(** ** The cache command *)


